(** * A two-pass MIPS assembler: symbol tables and instruction translation

    Shallow embedding of [tables.c] and [translate.c].

    Conventions of the embedding.
    - C integers are [Z]; a value stored into a [uint32_t] goes through
      [to_uint32], a value stored into an [int] or [int32_t] through
      [to_int32].  [long] is 64 bits wide (the tests pass 9000000000 as a
      [long] bound).
    - A [SymbolTable*] is passed in and its final value is passed out: a
      function that receives a table returns the table as it is when the
      function returns.  The array [table->tbl] is a [list Symbol];
      [table->len] is kept as the field the code reads and writes.
    - A [FILE*] written by [write_inst_hex] is the list of the 32-bit words
      written so far; one written by [write_inst_string] is the list of the
      instruction lines written so far.
    - Loops run on fuel: [while] gives [OutOfFuel] when the fuel is used up
      before the loop is left.  A call terminates when some amount of fuel
      makes it return; it does not terminate when no amount does.
    - [malloc] and [realloc] succeed; the text sent to [write_to_log] is not
      part of the model.
    - [translate_utils.c] ([translate_reg], [translate_num], the two output
      helpers) is not among the sources; the two parsers are taken as an
      interface, [TranslateUtils].
    - [translate.c] as it stands lacks a semicolon in [write_addiu] and has
      an unmatched closing brace after the commented-out copy of
      [write_branch]; the embedding follows the statements as written. *)

From Stdlib Require Import ZArith String Ascii List Lia Bool.
From stdpp Require Import base list strings.

Local Open Scope Z_scope.

(** ** Machine integers *)

Definition INT_MIN : Z := -2147483648.
Definition INT_MAX : Z := 2147483647.
Definition UINT_MAX : Z := 4294967295.
Definition LONG_MIN : Z := -9223372036854775808.
Definition LONG_MAX : Z := 9223372036854775807.

(** Conversion to [uint32_t]: reduction modulo 2^32. *)
Definition to_uint32 (z : Z) : Z := z mod 2 ^ 32.

(** Conversion to [int] / [int32_t]: two's complement. *)
Definition to_int32 (z : Z) : Z := (z + 2 ^ 31) mod 2 ^ 32 - 2 ^ 31.

(** Bits [hi..lo] of a word. *)
Definition field (hi lo : Z) (w : Z) : Z :=
  Z.land (Z.shiftr w lo) (Z.ones (hi - lo + 1)).

(** ** Results of calls that may loop *)

Inductive outcome (A : Type) : Type :=
| Returns (a : A)
| OutOfFuel.
Arguments Returns {A} a.
Arguments OutOfFuel {A}.

Definition outcome_bind {A B : Type} (k : A → outcome B) (m : outcome A) : outcome B :=
  match m with
  | Returns a => k a
  | OutOfFuel => OutOfFuel
  end.

#[export] Instance outcome_mret : MRet outcome := @Returns.
#[export] Instance outcome_mbind : MBind outcome := @outcome_bind.

(** [while cond body fuel s]: the loop [while (cond) body] started in [s].
    The body either ends an iteration in a new state ([inl]) or returns
    from the enclosing function ([inr]); the loop is left with [inl s]
    when the condition fails in [s]. *)
Fixpoint while {St R : Type} (cond : St → bool) (body : St → St + R)
    (fuel : nat) (s : St) : outcome (St + R) :=
  match fuel with
  | O => OutOfFuel
  | S fuel' =>
      if cond s then
        match body s with
        | inl s' => while cond body fuel' s'
        | inr r => Returns (inr r)
        end
      else Returns (inl s)
  end.

(** ** tables.c *)

Record Symbol : Type := mkSymbol { sym_name : string; sym_addr : Z }.

Record SymbolTable : Type := mkSymbolTable {
  tbl : list Symbol;
  len : Z;
  cap : Z;
  mode : Z
}.

Definition SYMTBL_NON_UNIQUE : Z := 0.
Definition SYMTBL_UNIQUE_NAME : Z := 1.
Definition INITIAL_SIZE : Z := 5.
Definition SCALING_FACTOR : Z := 2.

(** The content of an array slot that was allocated and not yet written. *)
Definition uninit : Symbol := {| sym_name := ""; sym_addr := 0 |}.

#[export] Instance Symbol_inhabited : Inhabited Symbol := populate uninit.

Definition set_tbl (table : SymbolTable) (a : list Symbol) : SymbolTable :=
  {| tbl := a; len := len table; cap := cap table; mode := mode table |}.

Definition set_len (table : SymbolTable) (n : Z) : SymbolTable :=
  {| tbl := tbl table; len := n; cap := cap table; mode := mode table |}.

(** A table whose [len] is the number of slots of [tbl], within the range
    of the [int] counters that walk it. *)
Definition table_ok (table : SymbolTable) : Prop :=
  len table = Z.of_nat (length (tbl table)) ∧ len table < INT_MAX.

(** [strcmp]: zero exactly on equal strings, else the sign of the first
    difference. *)
Definition strcmp (a b : string) : Z :=
  match String.compare a b with
  | Eq => 0
  | Lt => -1
  | Gt => 1
  end.

(** [realloc(a, n * sizeof(Symbol))]: [n] slots, the old ones kept. *)
Definition realloc (a : list Symbol) (n : Z) : list Symbol :=
  take (Z.to_nat n) a ++ replicate (Z.to_nat n - length a) uninit.

Definition create_table (mode : Z) : SymbolTable :=
  {| tbl := []; len := 0; cap := INITIAL_SIZE; mode := mode |}.

(** A fresh buffer holding the characters of [str]. *)
Definition create_copy_of_str (str : string) : string := str.

Definition add_to_table (fuel : nat) (table : SymbolTable) (name : string) (addr : Z)
    : outcome (Z * SymbolTable) :=
  if negb (addr mod 4 =? 0) then
    Returns (-1, table)
  else
    let copy_of_str := create_copy_of_str name in
    let copy := replicate (Z.to_nat (len table)) uninit in
    (* for (count = 0; count < table->len; count++) *)
    scanned ← while (λ '(count, _), count <? len table)
      (λ '(count, copy),
         let current_symbol := tbl table !!! Z.to_nat count in
         let equal := strcmp (sym_name current_symbol) copy_of_str in
         if (equal =? 0) && (mode table =? SYMTBL_UNIQUE_NAME) then inr (-1)
         else inl (count + 1, <[Z.to_nat count := current_symbol]> copy))
      fuel (0, copy);
    match scanned with
    | inr r => Returns (r, table)
    | inl (_, copy) =>
        let table := set_len table (len table + 1) in
        let table := set_tbl table (realloc (tbl table) (len table)) in
        (* int i = 0; while (i < table->len - 1) { table->tbl[i] = copy[i]; } *)
        restored ← while (R := Empty_set) (λ '(i, table), i <? len table - 1)
          (λ '(i, table),
             inl (i, set_tbl table (<[Z.to_nat i := copy !!! Z.to_nat i]> (tbl table))))
          fuel (0, table);
        match restored with
        | inr r => match r : Empty_set with end
        | inl (_, table) =>
            let new_symbol := {| sym_name := copy_of_str; sym_addr := addr |} in
            Returns (0, set_tbl table
                          (<[Z.to_nat (len table - 1) := new_symbol]> (tbl table)))
        end
    end.

Definition get_addr_for_symbol (fuel : nat) (table : SymbolTable) (name : string)
    : outcome (Z * SymbolTable) :=
  (* for (count = 0; count < table->len; count++) *)
  searched ← while (λ count, count <? len table)
    (λ count,
       let current_symbol := tbl table !!! Z.to_nat count in
       if strcmp (sym_name current_symbol) name =? 0
       then inr (sym_addr current_symbol)
       else inl (count + 1))
    fuel 0;
  match searched with
  | inr r => Returns (r, table)
  | inl _ => Returns (-1, table)
  end.

(** The body of [write_table] is empty. *)
Definition write_table (table : SymbolTable) (output : list (Z * string))
    : list (Z * string) := output.

(** ** The interface of translate_utils.c *)

(** [translate_reg str] is the register number of [str], or -1.
    [translate_num str lower upper] is [Some v] when the C function returns
    0 after storing [v] through its first argument, and [None] when it
    returns -1. *)
Class TranslateUtils : Type := {
  translate_reg : string → Z;
  translate_num : string → Z → Z → option Z
}.

(** Modelled from the spec: [write_inst_hex] of translate_utils.c is not
    among the sources.  A call emits "exactly one 32-bit word": the word is
    appended to the words written so far. *)
Definition write_inst_hex (output : list Z) (instruction : Z) : list Z :=
  output ++ [instruction].

(** A line of the pass-one output: a mnemonic and its operands. *)
Definition inst_line : Type := string * list string.

(** Modelled from the spec: [write_inst_string] of translate_utils.c is not
    among the sources.  A call passes the instruction through "unchanged as
    a single real instruction": the mnemonic and its [num_args] operands are
    appended, as one line, to the lines written so far. *)
Definition write_inst_string (output : list inst_line) (name : string)
    (args : list string) (num_args : Z) : list inst_line :=
  output ++ [(name, take (Z.to_nat num_args) args)].

(** ** translate.c *)

Definition TWO_POW_SEVENTEEN : Z := 131072.

Definition write_pass_one (output : list inst_line) (name : string)
    (args : list string) (num_args : Z) : Z * list inst_line :=
  if strcmp name "li" =? 0 then (0, output)
  else if strcmp name "move" =? 0 then (0, output)
  else if strcmp name "blt" =? 0 then (0, output)
  else if strcmp name "bgt" =? 0 then (0, output)
  else if strcmp name "traddu" =? 0 then (0, output)
  else if strcmp name "swpr" =? 0 then (0, output)
  else if strcmp name "mul" =? 0 then (0, output)
  else if strcmp name "div" =? 0 then (0, output)
  else if strcmp name "rem" =? 0 then (0, output)
  else (1, write_inst_string output name args num_args).

Definition can_branch_to (src_addr dest_addr : Z) : Z :=
  let diff := to_int32 (to_uint32 (dest_addr - src_addr)) in
  Z.b2z (((0 <=? diff) && (diff <=? TWO_POW_SEVENTEEN))
         || ((diff <? 0) && (- (TWO_POW_SEVENTEEN - 4) <=? diff))).

Section Encoders.
Context {U : TranslateUtils}.

Definition write_rtype (funct : Z) (output : list Z) (args : list string)
    (num_args : Z) : Z * list Z :=
  if negb (num_args =? 3) then (-1, output)
  else
    let rd := translate_reg (args !!! 0%nat) in
    let rs := translate_reg (args !!! 1%nat) in
    let rt := translate_reg (args !!! 2%nat) in
    if (rs =? -1) || (rd =? -1) || (rt =? -1) then (-1, output)
    else
      let instruction := to_uint32 (Z.shiftl 0 26) in
      let instruction := to_uint32 (instruction + Z.shiftl rs 21) in
      let instruction := to_uint32 (instruction + Z.shiftl rt 16) in
      let instruction := to_uint32 (instruction + Z.shiftl rd 11) in
      let instruction := to_uint32 (instruction + Z.shiftl 0 6) in
      let instruction := to_uint32 (instruction + funct) in
      (0, write_inst_hex output instruction).

Definition write_shift (funct : Z) (output : list Z) (args : list string)
    (num_args : Z) : Z * list Z :=
  if negb (num_args =? 3) then (-1, output)
  else
    let rd := translate_reg (args !!! 0%nat) in
    let rt := translate_reg (args !!! 1%nat) in
    match translate_num (args !!! 2%nat) 0 31 with
    | None => (-1, output)
    | Some s =>
        if (rd =? -1) || (rt =? -1) then (-1, output)
        else
          let instruction := to_uint32 (Z.shiftl 0 26) in
          let instruction := to_uint32 (instruction + Z.shiftl 0 21) in
          let instruction := to_uint32 (instruction + Z.shiftl rt 16) in
          let instruction := to_uint32 (instruction + Z.shiftl rd 11) in
          let instruction := to_uint32 (instruction + Z.shiftl s 6) in
          let instruction := to_uint32 (instruction + funct) in
          (0, write_inst_hex output instruction)
    end.

Definition write_jr (funct : Z) (output : list Z) (args : list string)
    (num_args : Z) : Z * list Z :=
  if negb (num_args =? 1) then (-1, output)
  else
    let rs := translate_reg (args !!! 0%nat) in
    if rs =? -1 then (-1, output)
    else
      let instruction := to_uint32 (Z.shiftl 0 26) in
      let instruction := to_uint32 (instruction + Z.shiftl rs 21) in
      let instruction := to_uint32 (instruction + Z.shiftl 0 16) in
      let instruction := to_uint32 (instruction + Z.shiftl 0 11) in
      let instruction := to_uint32 (instruction + Z.shiftl 0 6) in
      let instruction := to_uint32 (instruction + funct) in
      (0, write_inst_hex output instruction).

Definition write_addiu (opcode : Z) (output : list Z) (args : list string)
    (num_args : Z) : Z * list Z :=
  if negb (num_args =? 3) then (-1, output)
  else
    let rs := translate_reg (args !!! 0%nat) in
    let rt := translate_reg (args !!! 1%nat) in
    if (rs =? -1) || (rt =? -1) then (-1, output)
    else
      match translate_num (args !!! 2%nat) INT_MIN INT_MAX with
      | None => (-1, output)
      | Some i =>
          let instruction := to_uint32 (Z.shiftl opcode 26) in
          let instruction := to_uint32 (instruction + Z.shiftl rt 21) in
          let instruction := to_uint32 (instruction + Z.shiftl rs 16) in
          let instruction := to_uint32 (instruction + i) in
          (0, write_inst_hex output instruction)
      end.

Definition write_ori (opcode : Z) (output : list Z) (args : list string)
    (num_args : Z) : Z * list Z :=
  if negb (num_args =? 3) then (-1, output)
  else
    let rt := translate_reg (args !!! 0%nat) in
    let rs := translate_reg (args !!! 1%nat) in
    if (rs =? -1) || (rt =? -1) then (-1, output)
    else
      match translate_num (args !!! 2%nat) 0 UINT_MAX with
      | None => (-1, output)
      | Some i =>
          let instruction := to_uint32 (Z.shiftl opcode 26) in
          let instruction := to_uint32 (instruction + Z.shiftl rs 21) in
          let instruction := to_uint32 (instruction + Z.shiftl rt 16) in
          let instruction := to_uint32 (instruction + i) in
          (0, write_inst_hex output instruction)
      end.

Definition write_lui (opcode : Z) (output : list Z) (args : list string)
    (num_args : Z) : Z * list Z :=
  if negb (num_args =? 2) then (-1, output)
  else
    let rt := translate_reg (args !!! 0%nat) in
    if rt =? -1 then (-1, output)
    else
      match translate_num (args !!! 1%nat) LONG_MIN LONG_MAX with
      | None => (-1, output)
      | Some i =>
          let instruction := to_uint32 (Z.shiftl opcode 26) in
          let instruction := to_uint32 (instruction + Z.shiftl 0 21) in
          let instruction := to_uint32 (instruction + Z.shiftl rt 16) in
          let instruction := to_uint32 (instruction + i) in
          (0, write_inst_hex output instruction)
      end.

Definition write_mem (opcode : Z) (output : list Z) (args : list string)
    (num_args : Z) : Z * list Z :=
  if negb (num_args =? 3) then (-1, output)
  else
    let rs := translate_reg (args !!! 0%nat) in
    let rt := translate_reg (args !!! 2%nat) in
    if (rt =? -1) || (rs =? -1) then (-1, output)
    else
      match translate_num (args !!! 1%nat) INT_MIN INT_MAX with
      | None => (-1, output)
      | Some i =>
          let instruction := to_uint32 (Z.shiftl opcode 26) in
          let instruction := to_uint32 (instruction + Z.shiftl rt 21) in
          let instruction := to_uint32 (instruction + Z.shiftl rs 16) in
          let instruction := to_uint32 (instruction + i) in
          (0, write_inst_hex output instruction)
      end.

Definition write_branch (fuel : nat) (opcode : Z) (output : list Z)
    (args : list string) (num_args : Z) (addr : Z) (symtbl : SymbolTable)
    : outcome (Z * list Z * SymbolTable) :=
  if negb (num_args =? 3) then Returns (-1, output, symtbl)
  else
    let rs := translate_reg (args !!! 0%nat) in
    let rt := translate_reg (args !!! 1%nat) in
    if (rt =? -1) || (rs =? -1) then Returns (-1, output, symtbl)
    else
      '(found, symtbl) ← get_addr_for_symbol fuel symtbl (args !!! 2%nat);
      let label_addr := to_int32 found in
      if label_addr =? -1 then Returns (-1, output, symtbl)
      else
        let offset := 0 in
        let instruction := 0 in
        Returns (0, write_inst_hex output instruction, symtbl).

Definition write_jump (fuel : nat) (opcode : Z) (output : list Z)
    (args : list string) (num_args : Z) (addr : Z) (reltbl : SymbolTable)
    : outcome (Z * list Z * SymbolTable) :=
  if negb (num_args =? 1) then Returns (-1, output, reltbl)
  else
    '(_, reltbl) ← add_to_table fuel reltbl (args !!! 0%nat) addr;
    let instruction := to_uint32 (Z.shiftl opcode 26) in
    Returns (0, write_inst_hex output instruction, reltbl).

(** What [translate_inst] leaves behind: its return value, the output, the
    label table and the relocation table. *)
Definition translated : Type := Z * list Z * SymbolTable * SymbolTable.

Definition no_table (symtbl reltbl : SymbolTable) (r : Z * list Z) : outcome translated :=
  Returns (r.1, r.2, symtbl, reltbl).

Definition translate_inst (fuel : nat) (output : list Z) (name : string)
    (args : list string) (num_args : Z) (addr : Z)
    (symtbl reltbl : SymbolTable) : outcome translated :=
  let plain := no_table symtbl reltbl in
  if strcmp name "addu" =? 0 then plain (write_rtype 0x21 output args num_args)
  else if strcmp name "or" =? 0 then plain (write_rtype 0x25 output args num_args)
  else if strcmp name "slt" =? 0 then plain (write_rtype 0x2a output args num_args)
  else if strcmp name "sltu" =? 0 then plain (write_rtype 0x2b output args num_args)
  else if strcmp name "sll" =? 0 then plain (write_shift 0x00 output args num_args)
  else if strcmp name "jr" =? 0 then plain (write_jr 0x08 output args num_args)
  else if strcmp name "addiu" =? 0 then plain (write_addiu 0x9 output args num_args)
  else if strcmp name "ori" =? 0 then plain (write_ori 0xd output args num_args)
  else if strcmp name "lui" =? 0 then plain (write_lui 0xf output args num_args)
  else if strcmp name "lb" =? 0 then plain (write_mem 0x20 output args num_args)
  else if strcmp name "lw" =? 0 then plain (write_mem 0x23 output args num_args)
  else if strcmp name "lbu" =? 0 then plain (write_mem 0x24 output args num_args)
  else if strcmp name "sb" =? 0 then plain (write_mem 0x28 output args num_args)
  else if strcmp name "sw" =? 0 then plain (write_mem 0x2b output args num_args)
  else if strcmp name "beq" =? 0 then
    '(r, output, symtbl) ← write_branch fuel 0x4 output args num_args addr symtbl;
    Returns (r, output, symtbl, reltbl)
  else if strcmp name "bne" =? 0 then
    '(r, output, symtbl) ← write_branch fuel 0x5 output args num_args addr symtbl;
    Returns (r, output, symtbl, reltbl)
  else if strcmp name "j" =? 0 then
    '(r, output, reltbl) ← write_jump fuel 0x2 output args num_args addr reltbl;
    Returns (r, output, symtbl, reltbl)
  else if strcmp name "jal" =? 0 then
    '(r, output, reltbl) ← write_jump fuel 0x03 output args num_args addr reltbl;
    Returns (r, output, symtbl, reltbl)
  else Returns (-1, output, symtbl, reltbl).

End Encoders.

(** ** An implementation of the interface, for the worked examples *)

Definition digit_value (c : ascii) : option Z :=
  let n := Z.of_N (N_of_ascii c) in
  if (48 <=? n) && (n <=? 57) then Some (n - 48)
  else if (97 <=? n) && (n <=? 102) then Some (n - 87)
  else if (65 <=? n) && (n <=? 70) then Some (n - 55)
  else None.

Fixpoint read_digits (base acc : Z) (s : string) : option Z :=
  match s with
  | EmptyString => Some acc
  | String c rest =>
      match digit_value c with
      | Some d => if d <? base then read_digits base (acc * base + d) rest else None
      | None => None
      end
  end.

Definition read_unsigned (s : string) : option Z :=
  match s with
  | EmptyString => None
  | String "0" (String "x" EmptyString) => None
  | String "0" (String "x" rest) => read_digits 16 0 rest
  | _ => read_digits 10 0 s
  end.

Definition read_number (s : string) : option Z :=
  match s with
  | String "-" rest => option_map Z.opp (read_unsigned rest)
  | _ => read_unsigned s
  end.

(** Modelled from the spec: [translate_num] of translate_utils.c is not
    among the sources.  Operands are "immediates in decimal/hex", and a
    value that parses is accepted when it lies within the two bounds, both
    included, as [test_translate_num] asserts. *)
Definition translate_num_model (str : string) (lower_bound upper_bound : Z) : option Z :=
  match read_number str with
  | Some v => if (lower_bound <=? v) && (v <=? upper_bound) then Some v else None
  | None => None
  end.

(** Modelled from the spec: [translate_reg] of translate_utils.c is not
    among the sources.  The table holds the names [test_translate_reg]
    asserts a number for; every other string is rejected with -1, as the
    test asserts for "$3", "asdf" and "hey there". *)
Definition translate_reg_model (str : string) : Z :=
  if String.eqb str "$0" then 0
  else if String.eqb str "$at" then 1
  else if String.eqb str "$v0" then 2
  else if String.eqb str "$a0" then 4
  else if String.eqb str "$a1" then 5
  else if String.eqb str "$a2" then 6
  else if String.eqb str "$a3" then 7
  else if String.eqb str "$t0" then 8
  else if String.eqb str "$t1" then 9
  else if String.eqb str "$t2" then 10
  else if String.eqb str "$t3" then 11
  else if String.eqb str "$s0" then 16
  else if String.eqb str "$s1" then 17
  else -1.

Definition tests_utils : TranslateUtils :=
  {| translate_reg := translate_reg_model; translate_num := translate_num_model |}.

(** ** Tables of the worked examples *)

(** The table [test_table_1] expects after the three insertions it expects
    to be accepted. *)
Definition three_labels : SymbolTable :=
  {| tbl := [ {| sym_name := "abc"; sym_addr := 8 |};
              {| sym_name := "efg"; sym_addr := 12 |};
              {| sym_name := "q45"; sym_addr := 16 |} ];
     len := 3; cap := INITIAL_SIZE; mode := SYMTBL_UNIQUE_NAME |}.

(** The table of [test_table_1] after its first insertion. *)
Definition one_label : SymbolTable :=
  {| tbl := [ {| sym_name := "abc"; sym_addr := 8 |} ];
     len := 1; cap := INITIAL_SIZE; mode := SYMTBL_UNIQUE_NAME |}.

(** A relocation table with two sites of one symbol. *)
Definition two_sites : SymbolTable :=
  {| tbl := [ {| sym_name := "abc"; sym_addr := 8 |};
              {| sym_name := "q45"; sym_addr := 16 |};
              {| sym_name := "q45"; sym_addr := 24 |} ];
     len := 3; cap := INITIAL_SIZE; mode := SYMTBL_NON_UNIQUE |}.

(** A label more than 2^17 bytes away from address 0. *)
Definition far_label : SymbolTable :=
  {| tbl := [ {| sym_name := "far"; sym_addr := 1048576 |} ];
     len := 1; cap := INITIAL_SIZE; mode := SYMTBL_UNIQUE_NAME |}.

(** The relocation table after the first jump of a program, [j main] at
    address 8. *)
Definition one_site : SymbolTable :=
  {| tbl := [ {| sym_name := "main"; sym_addr := 8 |} ];
     len := 1; cap := INITIAL_SIZE; mode := SYMTBL_NON_UNIQUE |}.

(** A sound table in unique mode whose one entry holds an address that is
    no multiple of 4. *)
Definition odd_entry : SymbolTable :=
  {| tbl := [ {| sym_name := "x"; sym_addr := 2 |} ];
     len := 1; cap := INITIAL_SIZE; mode := SYMTBL_UNIQUE_NAME |}.

(** ** Mnemonics *)

(** The names [write_pass_one] compares its argument with, in order. *)
Definition pseudo_mnemonics : list string :=
  ["li"; "move"; "blt"; "bgt"; "traddu"; "swpr"; "mul"; "div"; "rem"].

(** The names [translate_inst] compares its argument with, in order. *)
Definition real_mnemonics : list string :=
  ["addu"; "or"; "slt"; "sltu"; "sll"; "jr"; "addiu"; "ori"; "lui";
   "lb"; "lw"; "lbu"; "sb"; "sw"; "beq"; "bne"; "j"; "jal"].

(** The mnemonics [translate_inst] hands to [write_rtype], each with the
    function code it passes. *)
Definition rtype_mnemonics : list (string * Z) :=
  [("addu", 0x21); ("or", 0x25); ("slt", 0x2a); ("sltu", 0x2b)].

(** Every stored address is a multiple of 4. *)
Definition aligned_table (table : SymbolTable) : Prop :=
  ∀ s, s ∈ tbl table → sym_addr s mod 4 = 0.

(** What an encoder may leave behind: -1 and the output as it was, or 0
    and the output with one 32-bit word added. *)
Definition one_word_or_nothing (output : list Z) (result : Z * list Z) : Prop :=
  (result.1 = -1 ∧ result.2 = output)
  ∨ (result.1 = 0 ∧ ∃ w : Z, 0 ≤ w < 2 ^ 32 ∧ result.2 = output ++ [w]).

(** ** Proof automation *)

(** Powers of two as literals, then linear arithmetic over the quotients
    and remainders. *)
Ltac pow_literals :=
  repeat match goal with
         | |- context [2 ^ ?n] =>
             let v := eval compute in (2 ^ n) in change (2 ^ n) with v
         end.

Ltac word_arith :=
  unfold to_uint32, field;
  rewrite ?Z.land_ones, ?Z.shiftr_div_pow2, ?Z.shiftl_mul_pow2 by lia;
  simpl Z.sub; simpl Z.add; pow_literals;
  Z.div_mod_to_equations; lia.

(** A chain of additions into a [uint32_t] against the sum of its parts. *)
Ltac chain_arith :=
  rewrite ?Z.shiftl_0_l, ?Z.shiftl_mul_pow2 by lia;
  unfold to_uint32; pow_literals; Z.div_mod_to_equations; lia.

(** An encoder either rejects and writes nothing or writes one word. *)
Ltac encoder_cases :=
  unfold one_word_or_nothing, write_inst_hex;
  repeat case_match; simpl;
  first [ by left
        | right; split; [done|]; eexists; split;
          [unfold to_uint32; by apply Z.mod_pos_bound | done] ].

(** No entry of an explicit list bears the name. *)
Ltac other_names :=
  let x := fresh "x" in
  let Hx := fresh "Hx" in
  intros x Hx;
  repeat (apply elem_of_cons in Hx as [->|Hx]; [discriminate|]);
  by apply elem_of_nil in Hx.

(** * Properties *)

(** ** Strings and loops *)

Lemma strcmp_refl (a : string) : strcmp a a = 0.
Proof.
  unfold strcmp. pose proof (String.compare_antisym a a) as H.
  destruct (String.compare a a); simpl in H; congruence.
Qed.

Lemma strcmp_zero (a b : string) : strcmp a b = 0 ↔ a = b.
Proof.
  split.
  - unfold strcmp. destruct (String.compare a b) eqn:E; try discriminate.
    intros _. by apply String.compare_eq_iff.
  - intros ->. apply strcmp_refl.
Qed.

Lemma strcmp_eqb_true (a b : string) : a = b → (strcmp a b =? 0) = true.
Proof. intros H. apply Z.eqb_eq. by apply strcmp_zero. Qed.

Lemma strcmp_eqb_false (a b : string) : a ≠ b → (strcmp a b =? 0) = false.
Proof. intros H. apply Z.eqb_neq. by rewrite strcmp_zero. Qed.

Section While.
Context {St R : Type} (cond : St → bool) (body : St → St + R).

Lemma while_exit (fuel : nat) (s : St) :
  cond s = false → while cond body (S fuel) s = Returns (inl s).
Proof. intros H. simpl. by rewrite H. Qed.

Lemma while_return (fuel : nat) (s : St) (r : R) :
  cond s = true → body s = inr r → while cond body (S fuel) s = Returns (inr r).
Proof. intros Hc Hb. simpl. by rewrite Hc, Hb. Qed.

Lemma while_iter (fuel : nat) (s s' : St) :
  cond s = true → body s = inl s' →
  while cond body (S fuel) s = while cond body fuel s'.
Proof. intros Hc Hb. simpl. by rewrite Hc, Hb. Qed.

(** More fuel does not change a result. *)
Lemma while_fuel_mono (fuel fuel' : nat) (s : St) (r : St + R) :
  while cond body fuel s = Returns r → (fuel ≤ fuel')%nat →
  while cond body fuel' s = Returns r.
Proof.
  revert fuel' s. induction fuel as [|fuel IH]; intros fuel' s H Hle; [discriminate|].
  destruct fuel' as [|fuel']; [lia|].
  simpl in *. destruct (cond s); [|done].
  destruct (body s) as [s'|r']; [|done].
  apply IH; [done|lia].
Qed.

(** A loop whose condition holds and whose body keeps it holding is never
    left, whatever the fuel. *)
Lemma while_stuck (P : St → Prop) :
  (∀ s, P s → cond s = true ∧ ∃ s', body s = inl s' ∧ P s') →
  ∀ fuel s, P s → while cond body fuel s = OutOfFuel.
Proof.
  intros Hstep fuel. induction fuel as [|fuel IH]; intros s Hs; [done|].
  destruct (Hstep s Hs) as (Hc & s' & Hb & Hs').
  rewrite (while_iter _ _ s') by done. by apply IH.
Qed.

End While.

(** ** tables.c: [get_addr_for_symbol] *)

Section Lookup.
Variables (table : SymbolTable) (name : string).
Hypothesis Hlen : len table = Z.of_nat (length (tbl table)).

Local Abbreviation search_cond := (λ count : Z, count <? len table).
Local Abbreviation search_body :=
  (λ count : Z,
     if strcmp (sym_name (tbl table !!! Z.to_nat count)) name =? 0
     then inr (sym_addr (tbl table !!! Z.to_nat count))
     else inl (count + 1)).

(** The slot read at index [length l0] of [l0 ++ x :: rest]. *)
Lemma slot_at_split (l0 rest : list Symbol) (x : Symbol) :
  tbl table = l0 ++ x :: rest →
  (Z.of_nat (length l0) <? len table) = true
  ∧ tbl table !!! Z.to_nat (Z.of_nat (length l0)) = x.
Proof using Hlen.
  intros Htbl. split.
  - apply Z.ltb_lt. rewrite Hlen, Htbl, length_app. simpl. lia.
  - rewrite Nat2Z.id, Htbl. by apply list_lookup_total_middle.
Qed.

(** The search walks over a run of entries that bear other names. *)
Lemma search_skip (l1 : list Symbol) :
  ∀ (l0 rest : list Symbol) (fuel : nat),
  tbl table = l0 ++ l1 ++ rest →
  (∀ x, x ∈ l1 → sym_name x ≠ name) →
  while search_cond search_body (length l1 + fuel) (Z.of_nat (length l0))
  = while search_cond search_body fuel (Z.of_nat (length (l0 ++ l1))).
Proof using Hlen.
  induction l1 as [|x l1 IH]; intros l0 rest fuel Htbl Hne.
  - by rewrite app_nil_r.
  - destruct (slot_at_split l0 (l1 ++ rest) x Htbl) as [Hc Hx].
    change (length (x :: l1) + fuel)%nat with (S (length l1 + fuel)).
    rewrite (while_iter _ _ _ _ (Z.of_nat (length l0) + 1)); [|done|].
    + replace (Z.of_nat (length l0) + 1) with (Z.of_nat (length (l0 ++ [x])))
        by (rewrite length_app; simpl; lia).
      rewrite (IH (l0 ++ [x]) rest).
      * by rewrite <- app_assoc.
      * by rewrite <- app_assoc.
      * intros y Hy. apply Hne. by right.
    + simpl. rewrite Hx, strcmp_eqb_false; [done|]. apply Hne. by left.
Qed.

Lemma search_skip_front (l1 rest : list Symbol) (fuel : nat) :
  tbl table = l1 ++ rest →
  (∀ x, x ∈ l1 → sym_name x ≠ name) →
  while search_cond search_body (length l1 + fuel) 0
  = while search_cond search_body fuel (Z.of_nat (length l1)).
Proof using Hlen. intros Htbl Hne. exact (search_skip l1 [] rest fuel Htbl Hne). Qed.

Lemma get_addr_for_symbol_found (fuel : nat) (l1 l2 : list Symbol) (s : Symbol) :
  tbl table = l1 ++ s :: l2 → sym_name s = name →
  (∀ x, x ∈ l1 → sym_name x ≠ name) →
  (len table < Z.of_nat fuel) →
  get_addr_for_symbol fuel table name = Returns (sym_addr s, table).
Proof using Hlen.
  intros Htbl Hs Hne Hfuel.
  assert (∃ f, fuel = (length l1 + S f)%nat) as [f ->].
  { exists (fuel - length l1 - 1)%nat.
    rewrite Hlen, Htbl, length_app in Hfuel. simpl in Hfuel. lia. }
  unfold get_addr_for_symbol.
  rewrite (search_skip_front l1 (s :: l2) (S f)) by done.
  destruct (slot_at_split l1 l2 s Htbl) as [Hc Hx].
  rewrite (while_return _ _ _ _ (sym_addr s)); [done|done|].
  simpl. by rewrite Hx, strcmp_eqb_true.
Qed.

Lemma get_addr_for_symbol_missing (fuel : nat) :
  (∀ x, x ∈ tbl table → sym_name x ≠ name) →
  (len table < Z.of_nat fuel) →
  get_addr_for_symbol fuel table name = Returns (-1, table).
Proof using Hlen.
  intros Hne Hfuel.
  assert (∃ f, fuel = (length (tbl table) + S f)%nat) as [f ->].
  { exists (fuel - length (tbl table) - 1)%nat. lia. }
  unfold get_addr_for_symbol.
  rewrite (search_skip_front (tbl table) [] (S f)); [| by rewrite app_nil_r | done].
  rewrite while_exit; [done|]. apply Z.ltb_ge. lia.
Qed.

End Lookup.

(** Among the entries that bear a name, one comes first. *)
Lemma first_occurrence (name : string) (l : list Symbol) :
  (∃ s, s ∈ l ∧ sym_name s = name) →
  ∃ l1 s l2, l = l1 ++ s :: l2 ∧ sym_name s = name
             ∧ ∀ x, x ∈ l1 → sym_name x ≠ name.
Proof.
  induction l as [|y l IH]; intros (s & Hin & Hs).
  - by apply elem_of_nil in Hin.
  - destruct (decide (sym_name y = name)) as [Hy|Hy].
    + exists [], y, l. split_and!; [done|done|]. intros x Hx. by apply elem_of_nil in Hx.
    + apply elem_of_cons in Hin as [->|Hin]; [done|].
      destruct IH as (l1 & s' & l2 & -> & Hs' & Hne); [by exists s|].
      exists (y :: l1), s', l2. split_and!; [done|done|].
      intros x Hx. apply elem_of_cons in Hx as [->|Hx]; [done|by apply Hne].
Qed.

(** C8. For every table and every name, [get_addr_for_symbol] returns the
    address of the first entry, in insertion order, that bears the name,
    and -1 when no entry bears it; the table it leaves is the table it was
    given.  The search returns with any fuel above the table's length. *)
Theorem get_addr_for_symbol_first_match (fuel : nat) (table : SymbolTable) (name : string) :
  table_ok table → len table < Z.of_nat fuel →
  (∀ l1 s l2,
     tbl table = l1 ++ s :: l2 → sym_name s = name →
     (∀ x, x ∈ l1 → sym_name x ≠ name) →
     get_addr_for_symbol fuel table name = Returns (sym_addr s, table))
  ∧ ((∀ x, x ∈ tbl table → sym_name x ≠ name) →
     get_addr_for_symbol fuel table name = Returns (-1, table)).
Proof.
  intros [Hlen _] Hfuel. split.
  - intros l1 s l2 Htbl Hs Hne. by eapply get_addr_for_symbol_found.
  - intros Hne. by apply get_addr_for_symbol_missing.
Qed.

(** ** tables.c: [add_to_table] *)

(** The alignment test comes first and touches nothing. *)
Lemma misaligned_rejected (fuel : nat) (table : SymbolTable) (name : string) (addr : Z) :
  addr mod 4 ≠ 0 →
  add_to_table fuel table name addr = Returns (-1, table).
Proof.
  intros Hmis. unfold add_to_table.
  by rewrite (proj2 (Z.eqb_neq _ _) Hmis).
Qed.

Section Insert.
Variables (table : SymbolTable) (name : string).
Hypothesis Hlen : len table = Z.of_nat (length (tbl table)).

Local Abbreviation scan_cond :=
  (λ '((count, _) : Z * list Symbol), count <? len table).
Local Abbreviation scan_body :=
  (λ '((count, copy) : Z * list Symbol),
     if (strcmp (sym_name (tbl table !!! Z.to_nat count)) name =? 0)
        && (mode table =? SYMTBL_UNIQUE_NAME)
     then inr (-1)
     else inl (count + 1, <[Z.to_nat count := tbl table !!! Z.to_nat count]> copy)).

(** The scan walks over a run of entries it does not reject. *)
Lemma scan_skip (l1 : list Symbol) :
  ∀ (l0 rest : list Symbol) (fuel : nat) (copy : list Symbol),
  tbl table = l0 ++ l1 ++ rest →
  (∀ x, x ∈ l1 → sym_name x ≠ name ∨ mode table ≠ SYMTBL_UNIQUE_NAME) →
  ∃ copy',
    while scan_cond scan_body (length l1 + fuel) (Z.of_nat (length l0), copy)
    = while scan_cond scan_body fuel (Z.of_nat (length (l0 ++ l1)), copy').
Proof using Hlen.
  induction l1 as [|x l1 IH]; intros l0 rest fuel copy Htbl Hok.
  - exists copy. by rewrite app_nil_r.
  - destruct (slot_at_split table Hlen l0 (l1 ++ rest) x Htbl) as [Hc Hx].
    destruct (IH (l0 ++ [x]) rest fuel
                (<[Z.to_nat (Z.of_nat (length l0)) := x]> copy)) as [copy' IH'].
    { by rewrite <- app_assoc. }
    { intros y Hy. apply Hok. by right. }
    exists copy'.
    change (length (x :: l1) + fuel)%nat with (S (length l1 + fuel)).
    rewrite (while_iter _ _ _ _
               (Z.of_nat (length l0) + 1,
                <[Z.to_nat (Z.of_nat (length l0)) := x]> copy)); [|done|].
    + replace (Z.of_nat (length l0) + 1) with (Z.of_nat (length (l0 ++ [x])))
        by (rewrite length_app; simpl; lia).
      rewrite IH'. by rewrite <- app_assoc.
    + simpl. rewrite Hx.
      destruct (Hok x) as [Hn|Hm]; [by left| |].
      * by rewrite strcmp_eqb_false.
      * rewrite (proj2 (Z.eqb_neq _ _) Hm). by rewrite andb_false_r.
Qed.

Lemma scan_skip_front (l1 rest : list Symbol) (fuel : nat) (copy : list Symbol) :
  tbl table = l1 ++ rest →
  (∀ x, x ∈ l1 → sym_name x ≠ name ∨ mode table ≠ SYMTBL_UNIQUE_NAME) →
  ∃ copy',
    while scan_cond scan_body (length l1 + fuel) (0, copy)
    = while scan_cond scan_body fuel (Z.of_nat (length l1), copy').
Proof using Hlen. intros Htbl Hok. exact (scan_skip l1 [] rest fuel copy Htbl Hok). Qed.

(** In unique mode the scan stops at the first entry that bears the name. *)
Lemma scan_rejects (fuel : nat) (copy l1 l2 : list Symbol) (s : Symbol) :
  tbl table = l1 ++ s :: l2 → sym_name s = name →
  (∀ x, x ∈ l1 → sym_name x ≠ name) →
  mode table = SYMTBL_UNIQUE_NAME →
  len table < Z.of_nat fuel →
  while scan_cond scan_body fuel (0, copy) = Returns (inr (-1)).
Proof using Hlen.
  intros Htbl Hs Hne Hmode Hfuel.
  assert (∃ f, fuel = (length l1 + S f)%nat) as [f ->].
  { exists (fuel - length l1 - 1)%nat.
    rewrite Hlen, Htbl, length_app in Hfuel. simpl in Hfuel. lia. }
  destruct (scan_skip_front l1 (s :: l2) (S f) copy Htbl) as [copy' Hskip].
  { intros x Hx. left. by apply Hne. }
  rewrite Hskip.
  destruct (slot_at_split table Hlen l1 l2 s Htbl) as [Hc Hx].
  apply while_return; [done|].
  simpl. rewrite Hx, strcmp_eqb_true by done.
  by rewrite (proj2 (Z.eqb_eq _ _) Hmode).
Qed.

(** Outside unique mode, or when no entry bears the name, the scan never
    makes the function return. *)
Lemma scan_never_rejects (fuel : nat) :
  (mode table ≠ SYMTBL_UNIQUE_NAME ∨ ∀ x, x ∈ tbl table → sym_name x ≠ name) →
  ∀ (count : Z) (copy : list Symbol) (r : Z),
  0 ≤ count →
  while scan_cond scan_body fuel (count, copy) ≠ Returns (inr r).
Proof using Hlen.
  intros Hok. induction fuel as [|fuel IH]; intros count copy r Hcount; [done|].
  destruct (count <? len table) eqn:Hc; [|by rewrite while_exit].
  rewrite (while_iter _ _ _ _
             (count + 1, <[Z.to_nat count := tbl table !!! Z.to_nat count]> copy));
    [apply IH; lia|done|].
  apply Z.ltb_lt in Hc.
  assert (tbl table !!! Z.to_nat count ∈ tbl table) as Hin.
  { apply list_elem_of_lookup_total_2. lia. }
  simpl. destruct Hok as [Hm|Hn].
  - by rewrite (proj2 (Z.eqb_neq _ _) Hm), andb_false_r.
  - by rewrite strcmp_eqb_false by (by apply Hn).
Qed.

End Insert.

(** The loop that copies the entries back never advances [i]: once its
    condition holds it holds for ever. *)
Lemma restore_stuck (copy : list Symbol) (fuel : nat) (t : SymbolTable) :
  0 < len t - 1 →
  while (λ '((i, table) : Z * SymbolTable), i <? len table - 1)
    (λ '((i, table) : Z * SymbolTable),
       @inl _ Empty_set
         (i, set_tbl table (<[Z.to_nat i := copy !!! Z.to_nat i]> (tbl table))))
    fuel (0, t)
  = OutOfFuel.
Proof.
  intros Hpos.
  apply (while_stuck _ _ (λ '(i, t'), i = 0 ∧ 0 < len t' - 1)); [|done].
  intros [i t'] [-> Ht']. split.
  - apply Z.ltb_lt. lia.
  - eexists. split; [done|]. simpl. done.
Qed.

Lemma aligned_test (addr : Z) : addr mod 4 = 0 → negb (addr mod 4 =? 0) = false.
Proof. intros H. by rewrite (proj2 (Z.eqb_eq _ _) H). Qed.

(** When the address is word-aligned and the insertion is not rejected as
    a duplicate, a call on a table that already holds an entry gets past
    the scan and into the loop that copies the entries back; that loop
    never advances its index, so no amount of fuel makes the call return. *)
Lemma add_to_table_stuck (table : SymbolTable) (name : string) (addr : Z) :
  table_ok table → 0 < len table → addr mod 4 = 0 →
  (mode table ≠ SYMTBL_UNIQUE_NAME ∨ ∀ x, x ∈ tbl table → sym_name x ≠ name) →
  ∀ fuel : nat, add_to_table fuel table name addr = OutOfFuel.
Proof.
  intros [Hlen _] Hpos Hal Hok fuel.
  unfold add_to_table, create_copy_of_str. rewrite (aligned_test _ Hal).
  match goal with
  | |- context [while ?c ?b fuel ?s ≫= _] =>
      destruct (while c b fuel s) as [[[c' copy']|r]|] eqn:E
  end.
  - simpl. rewrite restore_stuck; [done|]. simpl. lia.
  - exfalso. by eapply (scan_never_rejects table name Hlen fuel Hok 0).
  - done.
Qed.

(** Into an empty table the insertion goes through: no loop body runs. *)
Lemma add_to_table_empty (fuel : nat) (table : SymbolTable) (name : string) (addr : Z) :
  tbl table = [] → len table = 0 → addr mod 4 = 0 → (0 < fuel)%nat →
  add_to_table fuel table name addr
  = Returns (0, {| tbl := [ {| sym_name := name; sym_addr := addr |} ];
                   len := 1; cap := cap table; mode := mode table |}).
Proof.
  intros Htbl Hlen Hal Hfuel. destruct fuel as [|fuel]; [lia|].
  destruct table as [a n c m]. simpl in *. subst a n.
  unfold add_to_table, create_copy_of_str. rewrite (aligned_test _ Hal).
  reflexivity.
Qed.

(** C6. For every table, in either mode, every name and every address that
    is not a multiple of 4, [add_to_table] returns -1 and leaves the table
    as it was: same length, same entries, same order.  The call returns
    with any fuel, since no loop is reached. *)
Theorem add_to_table_misaligned (fuel : nat) (table : SymbolTable) (name : string) (addr : Z) :
  addr mod 4 ≠ 0 →
  add_to_table fuel table name addr = Returns (-1, table).
Proof. apply misaligned_rejected. Qed.

(** C3, as the code has it.  Take a word-aligned address and an insertion
    that the uniqueness mode does not reject.  Into an empty table the call
    returns 0, with the entry appended and the length gone from 0 to 1.
    Into a table that already holds an entry the call does not terminate:
    it returns for no amount of fuel. *)
Theorem add_to_table_returns_only_on_empty (table : SymbolTable) (name : string) (addr : Z) :
  table_ok table → addr mod 4 = 0 →
  (mode table ≠ SYMTBL_UNIQUE_NAME ∨ ∀ x, x ∈ tbl table → sym_name x ≠ name) →
  (len table = 0 →
   ∀ fuel : nat, (0 < fuel)%nat →
     add_to_table fuel table name addr
     = Returns (0, {| tbl := tbl table ++ [ {| sym_name := name; sym_addr := addr |} ];
                      len := len table + 1; cap := cap table; mode := mode table |}))
  ∧ (0 < len table →
     ∀ fuel : nat, add_to_table fuel table name addr = OutOfFuel).
Proof.
  intros Hok Hal Hfresh. split.
  - intros Hzero fuel Hfuel.
    assert (tbl table = []) as Hnil.
    { destruct Hok as [Hlen _]. apply length_zero_iff_nil. lia. }
    rewrite (add_to_table_empty fuel table name addr) by done.
    by rewrite Hnil, Hzero.
  - intros Hpos. by apply add_to_table_stuck.
Qed.

(** C7. In a table in unique mode that already holds the name, a further
    [add_to_table] with that name returns -1, whatever the address, and
    leaves the table as it was; a lookup of the name afterwards still gives
    the address of the first entry that bears it.  Both calls return with
    any fuel above the table's length. *)
Theorem add_to_table_unique_rejects_duplicate
    (fuel : nat) (table : SymbolTable) (name : string) (addr : Z) :
  table_ok table → mode table = SYMTBL_UNIQUE_NAME →
  (∃ s, s ∈ tbl table ∧ sym_name s = name) →
  len table < Z.of_nat fuel →
  add_to_table fuel table name addr = Returns (-1, table)
  ∧ ∃ l1 s l2,
      tbl table = l1 ++ s :: l2 ∧ sym_name s = name
      ∧ (∀ x, x ∈ l1 → sym_name x ≠ name)
      ∧ get_addr_for_symbol fuel table name = Returns (sym_addr s, table).
Proof.
  intros [Hlen Hmax] Hmode Hin Hfuel.
  destruct (first_occurrence name (tbl table) Hin) as (l1 & s & l2 & Htbl & Hs & Hne).
  split.
  - destruct (decide (addr mod 4 = 0)) as [Hal|Hmis];
      [|by apply misaligned_rejected].
    unfold add_to_table, create_copy_of_str. rewrite (aligned_test _ Hal).
    by rewrite (scan_rejects table name Hlen fuel _ l1 l2 s).
  - exists l1, s, l2. split_and!; [done..|].
    by apply (get_addr_for_symbol_found table name Hlen fuel l1 l2 s).
Qed.

(** C10, at a fresh table in a mode other than [SYMTBL_UNIQUE_NAME].
    [create_table] stores the mode as given and the first insertion of a
    name returns 0; the second insertion of the same name is not rejected,
    and does not return either: it is caught in the copy-back loop. *)
Theorem duplicate_insert_never_returns (m : Z) (name : string) (a1 a2 : Z) :
  m ≠ SYMTBL_UNIQUE_NAME → a1 mod 4 = 0 → a2 mod 4 = 0 →
  let first := {| tbl := [ {| sym_name := name; sym_addr := a1 |} ];
                  len := 1; cap := INITIAL_SIZE; mode := m |} in
  mode (create_table m) = m
  ∧ (∀ fuel : nat, add_to_table (S fuel) (create_table m) name a1 = Returns (0, first))
  ∧ (∀ fuel : nat, add_to_table fuel first name a2 = OutOfFuel).
Proof.
  intros Hm H1 H2 first. split_and!.
  - done.
  - intros fuel. by rewrite (add_to_table_empty (S fuel) (create_table m) name a1) by (done || lia).
  - intros fuel. apply add_to_table_stuck; [|done|done|by left].
    split; [done|]. simpl. unfold INT_MAX. lia.
Qed.

(** ** translate.c: pass one *)

(** C1, as the code has it.  The branch of [write_pass_one] for "li" holds
    no expansion: whatever the operands, it writes nothing and returns 0,
    also for the immediates 100 and 432096. *)
Theorem write_pass_one_li_writes_nothing
    (output : list inst_line) (args : list string) (num_args : Z) :
  write_pass_one output "li" args num_args = (0, output).
Proof. reflexivity. Qed.

(** ** translate.c: word arithmetic *)

Lemma to_uint32_add_l (a b : Z) : to_uint32 (to_uint32 a + b) = to_uint32 (a + b).
Proof. unfold to_uint32. apply Zplus_mod_idemp_l. Qed.

Lemma to_uint32_small (a : Z) : 0 ≤ a < 2 ^ 32 → to_uint32 a = a.
Proof. intros H. unfold to_uint32. by apply Z.mod_small. Qed.

Lemma reg_test (r : Z) : r ≠ -1 → (r =? -1) = false.
Proof. intros H. by apply Z.eqb_neq. Qed.

Section EncoderProofs.
Context {U : TranslateUtils}.

(** The word [write_rtype] builds, one addition at a time, is the sum of its
    fields when the registers and the function code are in range. *)
Lemma rtype_word (funct rd rs rt : Z) :
  0 ≤ funct < 64 → 0 ≤ rd ≤ 31 → 0 ≤ rs ≤ 31 → 0 ≤ rt ≤ 31 →
  to_uint32 (to_uint32 (to_uint32 (to_uint32 (to_uint32
    (to_uint32 (Z.shiftl 0 26) + Z.shiftl rs 21) + Z.shiftl rt 16)
    + Z.shiftl rd 11) + Z.shiftl 0 6) + funct)
  = rs * 2 ^ 21 + rt * 2 ^ 16 + rd * 2 ^ 11 + funct.
Proof.
  intros Hf Hd Hs Ht.
  rewrite !Z.shiftl_0_l, !Z.shiftl_mul_pow2 by lia.
  unfold to_uint32. pow_literals. Z.div_mod_to_equations. lia.
Qed.

(** C5. For register operands that [translate_reg] maps to numbers 0 to 31
    and a 6-bit function code, [write_rtype] writes one word, and reading
    the fields of that word back gives opcode 0, shift amount 0, the
    function code, and the three register numbers: rs from the second
    operand, rt from the third, rd from the first. *)
Theorem write_rtype_fields_roundtrip
    (funct : Z) (output : list Z) (a0 a1 a2 : string) :
  0 ≤ funct < 64 →
  0 ≤ translate_reg a0 ≤ 31 → 0 ≤ translate_reg a1 ≤ 31 → 0 ≤ translate_reg a2 ≤ 31 →
  ∃ w : Z,
    write_rtype funct output [a0; a1; a2] 3 = (0, output ++ [w])
    ∧ 0 ≤ w < 2 ^ 32
    ∧ field 31 26 w = 0
    ∧ field 25 21 w = translate_reg a1
    ∧ field 20 16 w = translate_reg a2
    ∧ field 15 11 w = translate_reg a0
    ∧ field 10 6 w = 0
    ∧ field 5 0 w = funct.
Proof.
  intros Hf Hd Hs Ht.
  exists (translate_reg a1 * 2 ^ 21 + translate_reg a2 * 2 ^ 16
          + translate_reg a0 * 2 ^ 11 + funct).
  split.
  - unfold write_rtype, write_inst_hex. simpl.
    rewrite !reg_test by lia. simpl.
    by rewrite rtype_word.
  - generalize dependent (translate_reg a0). generalize dependent (translate_reg a1).
    generalize dependent (translate_reg a2). intros rt Ht rs Hs rd Hd.
    split_and!; word_arith.
Qed.

(** C9, as the code has it.  [write_ori] asks [translate_num] for a value
    between 0 and [UINT_MAX]; whatever value comes back is added into the
    word, which is written, and the call returns 0.  Nothing compares the
    immediate with 65535. *)
Theorem write_ori_accepts_up_to_UINT_MAX
    (opcode : Z) (output : list Z) (a0 a1 a2 : string) (i : Z) :
  translate_reg a0 ≠ -1 → translate_reg a1 ≠ -1 →
  translate_num a2 0 UINT_MAX = Some i →
  write_ori opcode output [a0; a1; a2] 3
  = (0, output ++ [to_uint32 (Z.shiftl opcode 26 + Z.shiftl (translate_reg a1) 21
                              + Z.shiftl (translate_reg a0) 16 + i)]).
Proof.
  intros Ht Hs Hi. unfold write_ori, write_inst_hex. simpl.
  rewrite !reg_test by done. simpl. rewrite Hi.
  repeat (rewrite to_uint32_add_l || rewrite <- Z.add_assoc). done.
Qed.

(** When [translate_num] rejects the immediate, [write_ori] writes nothing
    and returns -1. *)
Lemma write_ori_rejected (opcode : Z) (output : list Z) (a0 a1 a2 : string) :
  translate_num a2 0 UINT_MAX = None →
  write_ori opcode output [a0; a1; a2] 3 = (-1, output).
Proof.
  intros Hi. unfold write_ori. simpl. rewrite Hi.
  by destruct (_ || _).
Qed.

(** C2, as the code has it.  Once both registers parse and the label is in
    the table, [write_branch] writes the word 0 and returns 0.  The address
    of the instruction does not enter the result: no displacement is
    computed, and neither alignment nor reach is checked. *)
Theorem write_branch_ignores_displacement
    (fuel : nat) (opcode : Z) (output : list Z) (a0 a1 label : string) (addr : Z)
    (symtbl : SymbolTable) (l1 l2 : list Symbol) (s : Symbol) :
  translate_reg a0 ≠ -1 → translate_reg a1 ≠ -1 →
  table_ok symtbl → len symtbl < Z.of_nat fuel →
  tbl symtbl = l1 ++ s :: l2 → sym_name s = label →
  (∀ x, x ∈ l1 → sym_name x ≠ label) →
  to_int32 (sym_addr s) ≠ -1 →
  write_branch fuel opcode output [a0; a1; label] 3 addr symtbl
  = Returns (0, output ++ [0], symtbl).
Proof.
  intros Hs Ht [Hlen _] Hfuel Htbl Hname Hne Hfound.
  unfold write_branch, write_inst_hex. simpl.
  rewrite !reg_test by done. simpl.
  rewrite (get_addr_for_symbol_found symtbl label Hlen fuel l1 l2 s) by done.
  simpl. by rewrite reg_test.
Qed.

End EncoderProofs.

(** ** translate.c: jumps *)

Lemma jump_word_fields (opcode : Z) :
  0 ≤ opcode < 64 →
  to_uint32 (Z.shiftl opcode 26) = opcode * 2 ^ 26
  ∧ field 25 0 (opcode * 2 ^ 26) = 0
  ∧ field 31 26 (opcode * 2 ^ 26) = opcode.
Proof. intros H. split_and!; word_arith. Qed.

(** At an address that is not word-aligned [add_to_table] refuses the
    entry, and [write_jump], which does not look at what [add_to_table]
    returned, still writes the word and returns 0. *)
Lemma write_jump_misaligned
    (fuel : nat) (opcode : Z) (output : list Z) (label : string) (addr : Z)
    (reltbl : SymbolTable) :
  addr mod 4 ≠ 0 →
  write_jump fuel opcode output [label] 1 addr reltbl
  = Returns (0, output ++ [to_uint32 (Z.shiftl opcode 26)], reltbl).
Proof.
  intros Hmis. unfold write_jump, write_inst_hex. simpl.
  by rewrite misaligned_rejected.
Qed.

Lemma write_jump_empty
    (fuel : nat) (opcode : Z) (output : list Z) (label : string) (addr : Z)
    (reltbl : SymbolTable) :
  addr mod 4 = 0 → tbl reltbl = [] → len reltbl = 0 → (0 < fuel)%nat →
  write_jump fuel opcode output [label] 1 addr reltbl
  = Returns (0, output ++ [to_uint32 (Z.shiftl opcode 26)],
             {| tbl := [ {| sym_name := label; sym_addr := addr |} ];
                len := 1; cap := cap reltbl; mode := mode reltbl |}).
Proof.
  intros Hal Htbl Hlen Hfuel. unfold write_jump, write_inst_hex. simpl.
  by rewrite (add_to_table_empty fuel reltbl label addr).
Qed.

(** C4, as the code has it.  Take a jump with one label operand at a
    word-aligned address, and a sound relocation table that does not
    reject the label as a duplicate.  On an empty relocation table
    [write_jump] returns 0, writes the one word [opcode * 2^26], whose 26
    target bits are zero, and leaves a table that holds exactly the entry
    (label, address).  On a relocation table that already holds an entry,
    as after an earlier jump, the call does not terminate: it is caught in
    the copy-back loop of [add_to_table] and returns for no amount of
    fuel. *)
Theorem write_jump_returns_only_on_empty
    (opcode : Z) (output : list Z) (label : string) (addr : Z)
    (reltbl : SymbolTable) :
  0 ≤ opcode < 64 → table_ok reltbl → addr mod 4 = 0 →
  (mode reltbl ≠ SYMTBL_UNIQUE_NAME ∨ ∀ x, x ∈ tbl reltbl → sym_name x ≠ label) →
  field 25 0 (opcode * 2 ^ 26) = 0
  ∧ (len reltbl = 0 →
     ∀ fuel : nat, (0 < fuel)%nat →
       write_jump fuel opcode output [label] 1 addr reltbl
       = Returns (0, output ++ [opcode * 2 ^ 26],
                  {| tbl := [ {| sym_name := label; sym_addr := addr |} ];
                     len := 1; cap := cap reltbl; mode := mode reltbl |}))
  ∧ (0 < len reltbl →
     ∀ fuel : nat, write_jump fuel opcode output [label] 1 addr reltbl = OutOfFuel).
Proof.
  intros Hop Hok Hal Hfresh.
  destruct (jump_word_fields opcode Hop) as (Hw & Hlow & _).
  split_and!; [done| |].
  - intros Hzero fuel Hfuel.
    assert (tbl reltbl = []) as Hnil.
    { destruct Hok as [Hlen _]. apply length_zero_iff_nil. lia. }
    by rewrite write_jump_empty, Hw.
  - intros Hpos fuel. unfold write_jump. simpl.
    by rewrite add_to_table_stuck.
Qed.

(** ** Worked examples *)

(** The implementation of the interface agrees with [test_translate_reg]
    and [test_translate_num]. *)
Example translate_reg_model_tests :
  map translate_reg_model
    ["$0"; "$at"; "$v0"; "$a0"; "$a1"; "$a2"; "$a3"; "$t0"; "$t1"; "$t2"; "$t3";
     "$s0"; "$s1"; "$3"; "asdf"; "hey there"]
  = [0; 1; 2; 4; 5; 6; 7; 8; 9; 10; 11; 16; 17; -1; -1; -1].
Proof. reflexivity. Qed.

Example translate_num_model_tests :
  translate_num_model "35" (-1000) 1000 = Some 35
  ∧ translate_num_model "145634236" 0 9000000000 = Some 145634236
  ∧ translate_num_model "0xC0FFEE" (-9000000000) 9000000000 = Some 12648430
  ∧ translate_num_model "72" (-16) 72 = Some 72
  ∧ translate_num_model "72" (-16) 71 = None
  ∧ translate_num_model "72" 72 150 = Some 72
  ∧ translate_num_model "72" 73 150 = None
  ∧ translate_num_model "35x" (-100) 100 = None.
Proof. by vm_compute. Qed.

Lemma three_labels_ok : table_ok three_labels.
Proof. split; [reflexivity | unfold INT_MAX; simpl; lia]. Defined.

Lemma two_sites_ok : table_ok two_sites.
Proof. split; [reflexivity | unfold INT_MAX; simpl; lia]. Defined.

Lemma one_label_ok : table_ok one_label.
Proof. split; [reflexivity | unfold INT_MAX; simpl; lia]. Defined.

Lemma far_label_ok : table_ok far_label.
Proof. split; [reflexivity | unfold INT_MAX; simpl; lia]. Defined.

(** Of two entries named "q45" the lookup gives the address of the first. *)
Lemma get_addr_for_symbol_first_match_witness :
  get_addr_for_symbol 4 two_sites "q45" = Returns (16, two_sites).
Proof.
  apply (proj1 (get_addr_for_symbol_first_match 4 two_sites "q45" two_sites_ok
                  ltac:(simpl; lia))
           [ {| sym_name := "abc"; sym_addr := 8 |} ]
           {| sym_name := "q45"; sym_addr := 16 |}
           [ {| sym_name := "q45"; sym_addr := 24 |} ]).
  - reflexivity.
  - reflexivity.
  - other_names.
Defined.

(** [add_to_table(tbl, "bob", 14)] of [test_table_1]. *)
Lemma add_to_table_misaligned_witness :
  add_to_table 0 three_labels "bob" 14 = Returns (-1, three_labels).
Proof. apply add_to_table_misaligned. vm_compute. discriminate. Defined.

(** [add_to_table(tbl, "q45", 24)] of [test_table_1]. *)
Lemma add_to_table_unique_rejects_duplicate_witness :
  add_to_table 4 three_labels "q45" 24 = Returns (-1, three_labels).
Proof.
  apply (add_to_table_unique_rejects_duplicate 4 three_labels "q45" 24).
  - exact three_labels_ok.
  - reflexivity.
  - exists {| sym_name := "q45"; sym_addr := 16 |}. split; [|reflexivity].
    do 2 (apply elem_of_cons; right). apply elem_of_cons. by left.
  - simpl. lia.
Defined.

(** [add_to_table(tbl, "efg", 12)] of [test_table_1], which the test
    expects to return 0. *)
Lemma add_to_table_returns_only_on_empty_witness :
  add_to_table 1000 one_label "efg" 12 = OutOfFuel.
Proof.
  destruct (add_to_table_returns_only_on_empty one_label "efg" 12) as [_ Hstuck].
  - exact one_label_ok.
  - reflexivity.
  - right. other_names.
  - apply Hstuck. simpl. lia.
Defined.

(** The two insertions into [tbl2] of [test_table_1], which the test
    expects to return 0 both. *)
Lemma duplicate_insert_never_returns_witness :
  add_to_table 1 (create_table SYMTBL_NON_UNIQUE) "q45" 16
  = Returns (0, {| tbl := [ {| sym_name := "q45"; sym_addr := 16 |} ];
                   len := 1; cap := INITIAL_SIZE; mode := SYMTBL_NON_UNIQUE |})
  ∧ add_to_table 1000
      {| tbl := [ {| sym_name := "q45"; sym_addr := 16 |} ];
         len := 1; cap := INITIAL_SIZE; mode := SYMTBL_NON_UNIQUE |} "q45" 24
    = OutOfFuel.
Proof.
  destruct (duplicate_insert_never_returns SYMTBL_NON_UNIQUE "q45" 16 24)
    as (_ & Hfirst & Hsecond); [discriminate | reflexivity | reflexivity |].
  split; [apply (Hfirst 0%nat) | apply (Hsecond 1000%nat)].
Defined.

(** [addu $t0, $t1, $t2]. *)
Lemma write_rtype_fields_roundtrip_witness :
  ∃ w : Z,
    write_rtype (U := tests_utils) 0x21 [] ["$t0"; "$t1"; "$t2"] 3 = (0, [] ++ [w])
    ∧ 0 ≤ w < 2 ^ 32
    ∧ field 31 26 w = 0
    ∧ field 25 21 w = 9
    ∧ field 20 16 w = 10
    ∧ field 15 11 w = 8
    ∧ field 10 6 w = 0
    ∧ field 5 0 w = 0x21.
Proof.
  apply (write_rtype_fields_roundtrip (U := tests_utils) 0x21 [] "$t0" "$t1" "$t2").
  all: vm_compute; split; (discriminate || reflexivity).
Defined.

(** [ori $t0, $t1, 65536]: the word written is 0x35290000, whose rt field
    reads 9 where the operand names register 8. *)
Lemma write_ori_accepts_up_to_UINT_MAX_witness :
  write_ori (U := tests_utils) 0xd [] ["$t0"; "$t1"; "65536"] 3 = (0, [891879424])
  ∧ field 20 16 891879424 = 9
  ∧ field 15 0 891879424 = 0.
Proof.
  split; [|split; reflexivity].
  apply (write_ori_accepts_up_to_UINT_MAX (U := tests_utils) 0xd [] "$t0" "$t1" "65536" 65536).
  - simpl. discriminate.
  - simpl. discriminate.
  - reflexivity.
Defined.

(** [beq $t0, $t1, far] at address 0: the label is 1048572 bytes past the
    next instruction, which [can_branch_to] calls out of reach, and the
    displacement in words, 262143, does not fit 16 bits. *)
Lemma write_branch_ignores_displacement_witness :
  can_branch_to (0 + 4) 1048576 = 0
  ∧ (1048576 - (0 + 4)) / 4 = 262143
  ∧ write_branch (U := tests_utils) 2 0x4 [] ["$t0"; "$t1"; "far"] 3 0 far_label
    = Returns (0, [] ++ [0], far_label).
Proof.
  split; [reflexivity|]. split; [reflexivity|].
  apply (write_branch_ignores_displacement (U := tests_utils) 2 0x4 [] "$t0" "$t1" "far" 0
           far_label [] [] {| sym_name := "far"; sym_addr := 1048576 |}).
  - simpl. discriminate.
  - simpl. discriminate.
  - exact far_label_ok.
  - simpl. lia.
  - reflexivity.
  - reflexivity.
  - other_names.
  - vm_compute. discriminate.
Defined.

(** [j main] at address 8 as the first jump of a program, then [jal main]
    at address 12: the first is recorded, the second never returns. *)
Lemma write_jump_returns_only_on_empty_witness :
  write_jump 1 0x2 [] ["main"] 1 8 (create_table SYMTBL_NON_UNIQUE)
  = Returns (0, [] ++ [2 * 2 ^ 26], one_site)
  ∧ write_jump 1000 0x3 [134217728] ["main"] 1 12 one_site = OutOfFuel.
Proof.
  split.
  - destruct (write_jump_returns_only_on_empty 0x2 [] "main" 8
                (create_table SYMTBL_NON_UNIQUE)) as (_ & Hfirst & _).
    + lia.
    + split; [reflexivity | unfold INT_MAX; simpl; lia].
    + reflexivity.
    + left. discriminate.
    + apply (Hfirst eq_refl 1%nat). lia.
  - destruct (write_jump_returns_only_on_empty 0x3 [134217728] "main" 12 one_site)
      as (_ & _ & Hlater).
    + lia.
    + split; [reflexivity | unfold INT_MAX; simpl; lia].
    + reflexivity.
    + left. discriminate.
    + apply Hlater. simpl. lia.
Defined.

(** * Further properties *)

(** ** tables.c *)

(** A lookup in a sound table, with fuel above its length, ends in one of
    two ways. *)
Lemma lookup_cases (fuel : nat) (table : SymbolTable) (name : string) :
  table_ok table → len table < Z.of_nat fuel →
  (∃ l1 s l2, tbl table = l1 ++ s :: l2 ∧ sym_name s = name
     ∧ (∀ x, x ∈ l1 → sym_name x ≠ name)
     ∧ get_addr_for_symbol fuel table name = Returns (sym_addr s, table))
  ∨ ((∀ x, x ∈ tbl table → sym_name x ≠ name)
     ∧ get_addr_for_symbol fuel table name = Returns (-1, table)).
Proof.
  intros [Hlen _] Hfuel.
  destruct (decide (Exists (λ s, sym_name s = name) (tbl table))) as [HE|HN].
  - left. apply Exists_exists in HE.
    destruct (first_occurrence name (tbl table) HE) as (l1 & s & l2 & Htbl & Hs & Hne).
    exists l1, s, l2. split_and!; [done..|].
    by apply (get_addr_for_symbol_found table name Hlen fuel l1 l2 s).
  - right. assert (∀ x, x ∈ tbl table → sym_name x ≠ name) as Hne.
    { intros x Hx Hname. apply HN, Exists_exists. by exists x. }
    split; [done|]. by apply get_addr_for_symbol_missing.
Qed.

(** X18. When no stored address is negative, the lookup answers -1 exactly
    when no entry bears the name: a stored address is never taken for the
    "not found" answer. *)
Theorem get_addr_for_symbol_miss_iff (fuel : nat) (table : SymbolTable) (name : string) :
  table_ok table → len table < Z.of_nat fuel →
  (∀ s, s ∈ tbl table → 0 ≤ sym_addr s) →
  ∃ r, get_addr_for_symbol fuel table name = Returns (r, table)
       ∧ (r = -1 ↔ ∀ s, s ∈ tbl table → sym_name s ≠ name).
Proof.
  intros Hok Hfuel Hpos.
  destruct (lookup_cases fuel table name Hok Hfuel)
    as [(l1 & s & l2 & Htbl & Hs & Hne & Hget)|[Hne Hget]].
  - exists (sym_addr s). split; [done|].
    assert (s ∈ tbl table) as Hin.
    { rewrite Htbl. apply elem_of_app. right. by left. }
    split.
    + intros Hr. specialize (Hpos s Hin). lia.
    + intros Habs. by destruct (Habs s Hin).
  - exists (-1). by split.
Qed.

(** The scan of [add_to_table] makes the function return one value only. *)
Lemma scan_return_value (table : SymbolTable) (name : string) (fuel : nat) :
  ∀ (st : Z * list Symbol) (r : Z),
  while (λ '((count, _) : Z * list Symbol), count <? len table)
    (λ '((count, copy) : Z * list Symbol),
       if (strcmp (sym_name (tbl table !!! Z.to_nat count)) name =? 0)
          && (mode table =? SYMTBL_UNIQUE_NAME)
       then inr (-1)
       else inl (count + 1, <[Z.to_nat count := tbl table !!! Z.to_nat count]> copy))
    fuel st
  = Returns (inr r) → r = -1.
Proof.
  induction fuel as [|fuel IH]; intros [count copy] r H; [done|].
  simpl in H. destruct (count <? len table); [|done].
  destruct (_ && _); [by injection H | by eapply IH].
Qed.

(** X16. Whenever [add_to_table] returns, on a sound table, it has either
    returned -1 and left the table as it was, or returned 0 and appended
    the entry, with [len] one higher.  In both cases the table it leaves is
    sound and keeps its mode and capacity field; and if the table it was
    given held word-aligned addresses only, so does the table it leaves. *)
Theorem add_to_table_outcome
    (fuel : nat) (table : SymbolTable) (name : string) (addr : Z)
    (r : Z) (table' : SymbolTable) :
  table_ok table →
  add_to_table fuel table name addr = Returns (r, table') →
  table_ok table'
  ∧ (aligned_table table → aligned_table table')
  ∧ mode table' = mode table ∧ cap table' = cap table
  ∧ ((r = -1 ∧ table' = table)
     ∨ (r = 0
        ∧ tbl table' = tbl table ++ [ {| sym_name := name; sym_addr := addr |} ]
        ∧ len table' = len table + 1)).
Proof.
  intros Hok Hret.
  assert (r = -1 ∧ table' = table
          ∨ r = 0 ∧ addr mod 4 = 0 ∧ tbl table = [] ∧ len table = 0
            ∧ table' = {| tbl := [ {| sym_name := name; sym_addr := addr |} ];
                          len := 1; cap := cap table; mode := mode table |})
    as [[-> ->]|(-> & Ha & Hnil & Hzero & ->)].
  { destruct (decide (addr mod 4 = 0)) as [Ha|Hmis];
      [|rewrite misaligned_rejected in Hret by done; injection Hret as <- <-; by left].
    destruct Hok as [Hlen Hmax].
    destruct (decide (len table = 0)) as [Hzero|Hpos].
    - right. assert (tbl table = []) as Hnil by (apply length_zero_iff_nil; lia).
      destruct fuel as [|fuel]; [by unfold add_to_table in Hret; rewrite aligned_test in Hret|].
      rewrite (add_to_table_empty (S fuel) table name addr) in Hret by (done || lia).
      by injection Hret as <- <-.
    - left. unfold add_to_table, create_copy_of_str in Hret.
      rewrite (aligned_test _ Ha) in Hret.
      match type of Hret with
      | context [while ?c ?b fuel ?s ≫= _] =>
          destruct (while c b fuel s) as [[[c' copy']|r0]|] eqn:E
      end; simpl in Hret.
      + rewrite restore_stuck in Hret; [done|]. simpl. lia.
      + apply scan_return_value in E as ->. by injection Hret as <- <-.
      + done. }
  - by split_and!; [..|left].
  - split_and!; [split; [done|unfold INT_MAX; simpl; lia]| |done|done|right].
    + intros _ s Hs. simpl in Hs. apply list_elem_of_singleton in Hs as ->. done.
    + simpl. rewrite Hnil, Hzero. done.
Qed.

(** X17. Insertion into a fresh table and lookup compose: the call returns
    0, a lookup of the inserted name then gives the inserted address, and a
    lookup of any other name gives -1. *)
Theorem fresh_insert_then_lookup (m : Z) (name other : string) (addr : Z) (fuel : nat) :
  addr mod 4 = 0 → other ≠ name → (1 < fuel)%nat →
  ∃ table,
    add_to_table fuel (create_table m) name addr = Returns (0, table)
    ∧ get_addr_for_symbol fuel table name = Returns (addr, table)
    ∧ get_addr_for_symbol fuel table other = Returns (-1, table).
Proof.
  intros Ha Hother Hfuel.
  set (t := {| tbl := [ {| sym_name := name; sym_addr := addr |} ];
               len := 1; cap := INITIAL_SIZE; mode := m |}).
  assert (len t = Z.of_nat (length (tbl t))) as Hlen by done.
  exists t. split_and!.
  - by rewrite (add_to_table_empty fuel (create_table m) name addr) by (done || lia).
  - apply (get_addr_for_symbol_found t name Hlen fuel [] []
             {| sym_name := name; sym_addr := addr |}); [done|done| |simpl; lia].
    intros x Hx. by apply elem_of_nil in Hx.
  - apply (get_addr_for_symbol_missing t other Hlen fuel); [|simpl; lia].
    intros x Hx. simpl in Hx. by apply list_elem_of_singleton in Hx as ->.
Qed.

(** ** translate.c: pass one and reachability *)

(** X1. [write_pass_one] writes nothing and returns 0 for each of the nine
    pseudo-instruction names, whatever the operands; every other name is
    written through as one line, with its first [num_args] operands, and 1
    is returned. *)
Theorem write_pass_one_by_name
    (output : list inst_line) (name : string) (args : list string) (num_args : Z) :
  (name ∈ pseudo_mnemonics → write_pass_one output name args num_args = (0, output))
  ∧ (name ∉ pseudo_mnemonics →
     write_pass_one output name args num_args
     = (1, output ++ [(name, take (Z.to_nat num_args) args)])).
Proof.
  split.
  - intros Hin. unfold pseudo_mnemonics in Hin.
    repeat (apply elem_of_cons in Hin as [->|Hin]; [reflexivity|]).
    by apply elem_of_nil in Hin.
  - intros Hout. unfold pseudo_mnemonics in Hout.
    repeat (apply not_elem_of_cons in Hout as [? Hout]).
    unfold write_pass_one, write_inst_string.
    by rewrite !strcmp_eqb_false.
Qed.

Lemma to_int32_of_uint32 (d : Z) :
  - 2 ^ 31 ≤ d < 2 ^ 31 → to_int32 (to_uint32 d) = d.
Proof.
  intros H. unfold to_int32, to_uint32. pow_literals.
  Z.div_mod_to_equations. lia.
Qed.

(** X2. For two addresses less than 2^31 bytes apart, [can_branch_to]
    answers 1 exactly when the destination is at most 2^17 bytes after the
    source or at most 2^17 - 4 bytes before it. *)
Theorem can_branch_to_range (src_addr dest_addr : Z) :
  - 2 ^ 31 ≤ dest_addr - src_addr < 2 ^ 31 →
  can_branch_to src_addr dest_addr = 1
  ↔ - (131072 - 4) ≤ dest_addr - src_addr ≤ 131072.
Proof.
  intros H. unfold can_branch_to, TWO_POW_SEVENTEEN.
  rewrite (to_int32_of_uint32 _ H).
  generalize dependent (dest_addr - src_addr). intros d _.
  destruct (Z.leb_spec 0 d), (Z.leb_spec d 131072), (Z.ltb_spec d 0),
    (Z.leb_spec (- (131072 - 4)) d); simpl; split; intros; (lia || done).
Qed.

Lemma can_branch_to_range_witness :
  can_branch_to 4 131076 = 1 ∧ can_branch_to 131072 4 = 1.
Proof.
  split.
  - apply (can_branch_to_range 4 131076); simpl; lia.
  - apply (can_branch_to_range 131072 4); simpl; lia.
Defined.

(** ** translate.c: the words of the encoders *)

Lemma rtype_fields (funct rd rs rt shamt : Z) :
  0 ≤ funct < 64 → 0 ≤ rd ≤ 31 → 0 ≤ rs ≤ 31 → 0 ≤ rt ≤ 31 → 0 ≤ shamt ≤ 31 →
  let w := rs * 2 ^ 21 + rt * 2 ^ 16 + rd * 2 ^ 11 + shamt * 2 ^ 6 + funct in
  0 ≤ w < 2 ^ 32
  ∧ field 31 26 w = 0 ∧ field 25 21 w = rs ∧ field 20 16 w = rt
  ∧ field 15 11 w = rd ∧ field 10 6 w = shamt ∧ field 5 0 w = funct.
Proof. intros Hf Hd Hs Ht Hsh w. subst w. split_and!; word_arith. Qed.

Lemma shift_word (funct rd rt s : Z) :
  0 ≤ funct < 64 → 0 ≤ rd ≤ 31 → 0 ≤ rt ≤ 31 → 0 ≤ s ≤ 31 →
  to_uint32 (to_uint32 (to_uint32 (to_uint32 (to_uint32
    (to_uint32 (Z.shiftl 0 26) + Z.shiftl 0 21) + Z.shiftl rt 16)
    + Z.shiftl rd 11) + Z.shiftl s 6) + funct)
  = 0 * 2 ^ 21 + rt * 2 ^ 16 + rd * 2 ^ 11 + s * 2 ^ 6 + funct.
Proof. intros Hf Hd Ht Hs. chain_arith. Qed.

(** The word of the immediate formats is the sum of its parts as long as
    the immediate, added last, does not take the sum below zero. *)
Lemma itype_word (opcode a b i : Z) :
  0 ≤ opcode < 64 → 0 ≤ a ≤ 31 → 0 ≤ b ≤ 31 →
  - 65536 ≤ i < 65536 → 0 ≤ b * 65536 + i →
  to_uint32 (to_uint32 (to_uint32 (to_uint32 (Z.shiftl opcode 26)
    + Z.shiftl a 21) + Z.shiftl b 16) + i)
  = opcode * 2 ^ 26 + a * 2 ^ 21 + b * 2 ^ 16 + i.
Proof. intros Ho Ha Hb Hi Hsum. chain_arith. Qed.

Lemma itype_fields (opcode a b i : Z) :
  0 ≤ opcode < 64 → 0 ≤ a ≤ 31 → 0 ≤ b ≤ 31 → 0 ≤ i < 65536 →
  let w := opcode * 2 ^ 26 + a * 2 ^ 21 + b * 2 ^ 16 + i in
  0 ≤ w < 2 ^ 32
  ∧ field 31 26 w = opcode ∧ field 25 21 w = a ∧ field 20 16 w = b
  ∧ field 15 0 w = i.
Proof. intros Ho Ha Hb Hi w. subst w. split_and!; word_arith. Qed.

(** A negative immediate, added as it is, fills the low half-word with its
    two's complement and takes one from the field above. *)
Lemma itype_fields_negative (opcode a b i : Z) :
  0 ≤ opcode < 64 → 0 ≤ a ≤ 31 → 1 ≤ b ≤ 31 → - 32768 ≤ i < 0 →
  let w := opcode * 2 ^ 26 + a * 2 ^ 21 + b * 2 ^ 16 + i in
  0 ≤ w < 2 ^ 32
  ∧ field 31 26 w = opcode ∧ field 25 21 w = a ∧ field 20 16 w = b - 1
  ∧ field 15 0 w = i + 65536.
Proof. intros Ho Ha Hb Hi w. subst w. split_and!; word_arith. Qed.

Section EncoderRoundTrips.
Context {U : TranslateUtils}.

(** X3. For register operands mapped to 0..31, a shift amount that
    [translate_num], asked for the range 0 to 31, gives within that range,
    and a 6-bit function code, [write_shift] writes one word whose fields
    read: opcode 0, rs 0, rt from the second operand, rd from the first,
    the shift amount, the function code. *)
Theorem write_shift_fields_roundtrip
    (funct : Z) (output : list Z) (a0 a1 a2 : string) (s : Z) :
  0 ≤ funct < 64 →
  0 ≤ translate_reg a0 ≤ 31 → 0 ≤ translate_reg a1 ≤ 31 →
  translate_num a2 0 31 = Some s → 0 ≤ s ≤ 31 →
  ∃ w : Z,
    write_shift funct output [a0; a1; a2] 3 = (0, output ++ [w])
    ∧ 0 ≤ w < 2 ^ 32
    ∧ field 31 26 w = 0 ∧ field 25 21 w = 0
    ∧ field 20 16 w = translate_reg a1
    ∧ field 15 11 w = translate_reg a0
    ∧ field 10 6 w = s
    ∧ field 5 0 w = funct.
Proof.
  intros Hf Hd Ht Hnum Hs.
  exists (0 * 2 ^ 21 + translate_reg a1 * 2 ^ 16 + translate_reg a0 * 2 ^ 11
          + s * 2 ^ 6 + funct).
  split.
  - unfold write_shift, write_inst_hex. simpl. rewrite Hnum.
    rewrite !reg_test by lia. simpl. by rewrite shift_word.
  - apply (rtype_fields funct (translate_reg a0) 0 (translate_reg a1) s); lia.
Qed.

(** X4. For a register operand mapped to 0..31 and a 6-bit function code,
    [write_jr] writes one word whose fields read: opcode 0, rs from the
    operand, rt, rd and shift amount 0, the function code. *)
Theorem write_jr_fields_roundtrip (funct : Z) (output : list Z) (a0 : string) :
  0 ≤ funct < 64 → 0 ≤ translate_reg a0 ≤ 31 →
  ∃ w : Z,
    write_jr funct output [a0] 1 = (0, output ++ [w])
    ∧ 0 ≤ w < 2 ^ 32
    ∧ field 31 26 w = 0
    ∧ field 25 21 w = translate_reg a0
    ∧ field 20 16 w = 0 ∧ field 15 11 w = 0 ∧ field 10 6 w = 0
    ∧ field 5 0 w = funct.
Proof.
  intros Hf Hs.
  exists (translate_reg a0 * 2 ^ 21 + 0 * 2 ^ 16 + 0 * 2 ^ 11 + 0 * 2 ^ 6 + funct).
  split.
  - unfold write_jr, write_inst_hex. simpl.
    rewrite !reg_test by lia.
    rewrite (rtype_word funct 0 (translate_reg a0) 0) by lia.
    do 2 f_equal. f_equal. lia.
  - apply (rtype_fields funct 0 (translate_reg a0) 0 0); lia.
Qed.

(** X5. For register operands mapped to 0..31, a 6-bit opcode and an
    immediate between 0 and 65535, [write_addiu] writes one word whose
    fields read: the opcode, the second operand's register in bits 25-21,
    the first operand's register in bits 20-16, the immediate in the low 16
    bits. *)
Theorem write_addiu_fields_roundtrip
    (opcode : Z) (output : list Z) (a0 a1 a2 : string) (i : Z) :
  0 ≤ opcode < 64 →
  0 ≤ translate_reg a0 ≤ 31 → 0 ≤ translate_reg a1 ≤ 31 →
  translate_num a2 INT_MIN INT_MAX = Some i → 0 ≤ i < 65536 →
  ∃ w : Z,
    write_addiu opcode output [a0; a1; a2] 3 = (0, output ++ [w])
    ∧ 0 ≤ w < 2 ^ 32
    ∧ field 31 26 w = opcode
    ∧ field 25 21 w = translate_reg a1
    ∧ field 20 16 w = translate_reg a0
    ∧ field 15 0 w = i.
Proof.
  intros Ho Hs Ht Hnum Hi.
  exists (opcode * 2 ^ 26 + translate_reg a1 * 2 ^ 21 + translate_reg a0 * 2 ^ 16 + i).
  split.
  - unfold write_addiu, write_inst_hex. simpl.
    rewrite !reg_test by lia. simpl. rewrite Hnum.
    by rewrite itype_word by lia.
  - by apply itype_fields.
Qed.

(** X6. [write_addiu] adds a negative immediate into the word as it is.
    For an immediate between -32768 and -1 and a first operand mapped to a
    register from 1 to 31, the low 16 bits hold the immediate plus 65536,
    and bits 20-16 read one less than the register of the first operand. *)
Theorem write_addiu_negative_immediate
    (opcode : Z) (output : list Z) (a0 a1 a2 : string) (i : Z) :
  0 ≤ opcode < 64 →
  1 ≤ translate_reg a0 ≤ 31 → 0 ≤ translate_reg a1 ≤ 31 →
  translate_num a2 INT_MIN INT_MAX = Some i → - 32768 ≤ i < 0 →
  ∃ w : Z,
    write_addiu opcode output [a0; a1; a2] 3 = (0, output ++ [w])
    ∧ 0 ≤ w < 2 ^ 32
    ∧ field 31 26 w = opcode
    ∧ field 25 21 w = translate_reg a1
    ∧ field 20 16 w = translate_reg a0 - 1
    ∧ field 15 0 w = i + 65536.
Proof.
  intros Ho Hs Ht Hnum Hi.
  exists (opcode * 2 ^ 26 + translate_reg a1 * 2 ^ 21 + translate_reg a0 * 2 ^ 16 + i).
  split.
  - unfold write_addiu, write_inst_hex. simpl.
    rewrite !reg_test by lia. simpl. rewrite Hnum.
    by rewrite itype_word by lia.
  - by apply itype_fields_negative.
Qed.

(** X7. For register operands mapped to 0..31, a 6-bit opcode and an
    immediate between 0 and 65535, [write_ori] writes one word whose fields
    read: the opcode, the second operand's register in bits 25-21, the
    first operand's register in bits 20-16, the immediate in the low 16
    bits. *)
Theorem write_ori_fields_roundtrip
    (opcode : Z) (output : list Z) (a0 a1 a2 : string) (i : Z) :
  0 ≤ opcode < 64 →
  0 ≤ translate_reg a0 ≤ 31 → 0 ≤ translate_reg a1 ≤ 31 →
  translate_num a2 0 UINT_MAX = Some i → 0 ≤ i < 65536 →
  ∃ w : Z,
    write_ori opcode output [a0; a1; a2] 3 = (0, output ++ [w])
    ∧ 0 ≤ w < 2 ^ 32
    ∧ field 31 26 w = opcode
    ∧ field 25 21 w = translate_reg a1
    ∧ field 20 16 w = translate_reg a0
    ∧ field 15 0 w = i.
Proof.
  intros Ho Ht Hs Hnum Hi.
  exists (opcode * 2 ^ 26 + translate_reg a1 * 2 ^ 21 + translate_reg a0 * 2 ^ 16 + i).
  split.
  - unfold write_ori, write_inst_hex. simpl.
    rewrite !reg_test by lia. simpl. rewrite Hnum.
    by rewrite itype_word by lia.
  - by apply itype_fields.
Qed.

(** X8. For a register operand mapped to 0..31, a 6-bit opcode and an
    immediate between 0 and 65535, [write_lui] writes one word whose fields
    read: the opcode, 0 in bits 25-21, the operand's register in bits
    20-16, the immediate in the low 16 bits. *)
Theorem write_lui_fields_roundtrip
    (opcode : Z) (output : list Z) (a0 a1 : string) (i : Z) :
  0 ≤ opcode < 64 → 0 ≤ translate_reg a0 ≤ 31 →
  translate_num a1 LONG_MIN LONG_MAX = Some i → 0 ≤ i < 65536 →
  ∃ w : Z,
    write_lui opcode output [a0; a1] 2 = (0, output ++ [w])
    ∧ 0 ≤ w < 2 ^ 32
    ∧ field 31 26 w = opcode
    ∧ field 25 21 w = 0
    ∧ field 20 16 w = translate_reg a0
    ∧ field 15 0 w = i.
Proof.
  intros Ho Ht Hnum Hi.
  exists (opcode * 2 ^ 26 + 0 * 2 ^ 21 + translate_reg a0 * 2 ^ 16 + i).
  split.
  - unfold write_lui, write_inst_hex. simpl.
    rewrite !reg_test by lia. rewrite Hnum.
    by rewrite itype_word by lia.
  - apply itype_fields; lia.
Qed.

(** X9. For register operands mapped to 0..31, a 6-bit opcode and an offset
    between 0 and 65535, [write_mem] writes one word whose fields read: the
    opcode, the third operand's register in bits 25-21, the first operand's
    register in bits 20-16, the offset (the second operand) in the low 16
    bits. *)
Theorem write_mem_fields_roundtrip
    (opcode : Z) (output : list Z) (a0 a1 a2 : string) (i : Z) :
  0 ≤ opcode < 64 →
  0 ≤ translate_reg a0 ≤ 31 → 0 ≤ translate_reg a2 ≤ 31 →
  translate_num a1 INT_MIN INT_MAX = Some i → 0 ≤ i < 65536 →
  ∃ w : Z,
    write_mem opcode output [a0; a1; a2] 3 = (0, output ++ [w])
    ∧ 0 ≤ w < 2 ^ 32
    ∧ field 31 26 w = opcode
    ∧ field 25 21 w = translate_reg a2
    ∧ field 20 16 w = translate_reg a0
    ∧ field 15 0 w = i.
Proof.
  intros Ho Hs Ht Hnum Hi.
  exists (opcode * 2 ^ 26 + translate_reg a2 * 2 ^ 21 + translate_reg a0 * 2 ^ 16 + i).
  split.
  - unfold write_mem, write_inst_hex. simpl.
    rewrite !reg_test by lia. simpl. rewrite Hnum.
    by rewrite itype_word by lia.
  - by apply itype_fields.
Qed.

(** X10. [write_mem] adds a negative offset into the word as it is.  For an
    offset between -32768 and -1 and a first operand mapped to a register
    from 1 to 31, the low 16 bits hold the offset plus 65536, and bits
    20-16 read one less than the register of the first operand. *)
Theorem write_mem_negative_offset
    (opcode : Z) (output : list Z) (a0 a1 a2 : string) (i : Z) :
  0 ≤ opcode < 64 →
  1 ≤ translate_reg a0 ≤ 31 → 0 ≤ translate_reg a2 ≤ 31 →
  translate_num a1 INT_MIN INT_MAX = Some i → - 32768 ≤ i < 0 →
  ∃ w : Z,
    write_mem opcode output [a0; a1; a2] 3 = (0, output ++ [w])
    ∧ 0 ≤ w < 2 ^ 32
    ∧ field 31 26 w = opcode
    ∧ field 25 21 w = translate_reg a2
    ∧ field 20 16 w = translate_reg a0 - 1
    ∧ field 15 0 w = i + 65536.
Proof.
  intros Ho Hs Ht Hnum Hi.
  exists (opcode * 2 ^ 26 + translate_reg a2 * 2 ^ 21 + translate_reg a0 * 2 ^ 16 + i).
  split.
  - unfold write_mem, write_inst_hex. simpl.
    rewrite !reg_test by lia. simpl. rewrite Hnum.
    by rewrite itype_word by lia.
  - by apply itype_fields_negative.
Qed.

End EncoderRoundTrips.

(** ** translate.c: branches and dispatch *)

(** A word-aligned address, cut to an [int], is not -1. *)
Lemma aligned_not_minus_one (a : Z) : a mod 4 = 0 → (to_int32 a =? -1) = false.
Proof.
  intros Ha. apply Z.eqb_neq. unfold to_int32. pow_literals.
  Z.div_mod_to_equations. lia.
Qed.

Lemma lookup_keeps_table (fuel : nat) (table table' : SymbolTable) (name : string) (r : Z) :
  get_addr_for_symbol fuel table name = Returns (r, table') → table' = table.
Proof.
  unfold get_addr_for_symbol.
  destruct (while _ _ fuel 0) as [[c|a]|]; simpl; intros H; by simplify_eq.
Qed.

Section Dispatch.
Context {U : TranslateUtils}.

(** X11. On three operands and a sound label table of word-aligned
    addresses, [write_branch] returns -1 and writes nothing when a register
    operand is rejected or when the label is in no entry; otherwise it
    returns 0 and writes the word 0.  The label table comes back as it was
    given. *)
Theorem write_branch_outcome
    (fuel : nat) (opcode : Z) (output : list Z) (a0 a1 label : string) (addr : Z)
    (symtbl : SymbolTable) :
  table_ok symtbl → aligned_table symtbl → len symtbl < Z.of_nat fuel →
  (translate_reg a0 = -1 ∨ translate_reg a1 = -1
   ∨ (∀ s, s ∈ tbl symtbl → sym_name s ≠ label) →
   write_branch fuel opcode output [a0; a1; label] 3 addr symtbl
   = Returns (-1, output, symtbl))
  ∧ (translate_reg a0 ≠ -1 → translate_reg a1 ≠ -1 →
     (∃ s, s ∈ tbl symtbl ∧ sym_name s = label) →
     write_branch fuel opcode output [a0; a1; label] 3 addr symtbl
     = Returns (0, output ++ [0], symtbl)).
Proof.
  intros Hok Hal Hfuel. unfold write_branch, write_inst_hex. simpl. split.
  - intros Hbad.
    destruct (decide (translate_reg a1 = -1)) as [H1|H1]; [by rewrite H1|].
    destruct (decide (translate_reg a0 = -1)) as [H0|H0];
      [by rewrite H0, orb_true_r|].
    destruct Hbad as [?|[?|Hne]]; [done|done|].
    rewrite !reg_test by done. simpl.
    destruct (lookup_cases fuel symtbl label Hok Hfuel)
      as [(l1 & s & l2 & Htbl & Hs & _ & _)|[_ ->]]; [|done].
    destruct (Hne s); [|done]. rewrite Htbl. apply elem_of_app. right. by left.
  - intros H0 H1 (s0 & Hin0 & Hs0).
    rewrite !reg_test by done. simpl.
    destruct (lookup_cases fuel symtbl label Hok Hfuel)
      as [(l1 & s & l2 & Htbl & Hs & _ & ->)|[Hne _]]; [|by destruct (Hne s0 Hin0)].
    simpl. rewrite aligned_not_minus_one; [done|].
    apply Hal. rewrite Htbl. apply elem_of_app. right. by left.
Qed.

(** X12. For a name that is none of the eighteen mnemonics,
    [translate_inst] returns -1 with any fuel, and the output and both
    tables come back as they were given. *)
Theorem translate_inst_unknown
    (fuel : nat) (output : list Z) (name : string) (args : list string)
    (num_args addr : Z) (symtbl reltbl : SymbolTable) :
  name ∉ real_mnemonics →
  translate_inst fuel output name args num_args addr symtbl reltbl
  = Returns (-1, output, symtbl, reltbl).
Proof.
  intros Hout. unfold real_mnemonics in Hout.
  repeat (apply not_elem_of_cons in Hout as [? Hout]).
  unfold translate_inst. by rewrite !strcmp_eqb_false.
Qed.

End Dispatch.

Lemma to_uint32_range (z : Z) : 0 ≤ to_uint32 z < 2 ^ 32.
Proof. unfold to_uint32. apply Z.mod_pos_bound. done. Qed.

Section Effects.
Context {U : TranslateUtils}.

Lemma write_rtype_effect funct output args num_args :
  one_word_or_nothing output (write_rtype funct output args num_args).
Proof. unfold write_rtype. encoder_cases. Qed.

Lemma write_shift_effect funct output args num_args :
  one_word_or_nothing output (write_shift funct output args num_args).
Proof. unfold write_shift. encoder_cases. Qed.

Lemma write_jr_effect funct output args num_args :
  one_word_or_nothing output (write_jr funct output args num_args).
Proof. unfold write_jr. encoder_cases. Qed.

Lemma write_addiu_effect opcode output args num_args :
  one_word_or_nothing output (write_addiu opcode output args num_args).
Proof. unfold write_addiu. encoder_cases. Qed.

Lemma write_ori_effect opcode output args num_args :
  one_word_or_nothing output (write_ori opcode output args num_args).
Proof. unfold write_ori. encoder_cases. Qed.

Lemma write_lui_effect opcode output args num_args :
  one_word_or_nothing output (write_lui opcode output args num_args).
Proof. unfold write_lui. encoder_cases. Qed.

Lemma write_mem_effect opcode output args num_args :
  one_word_or_nothing output (write_mem opcode output args num_args).
Proof. unfold write_mem. encoder_cases. Qed.

Lemma write_branch_effect fuel opcode output args num_args addr symtbl r output' symtbl' :
  write_branch fuel opcode output args num_args addr symtbl
  = Returns (r, output', symtbl') →
  symtbl' = symtbl ∧ one_word_or_nothing output (r, output').
Proof.
  unfold write_branch, write_inst_hex, one_word_or_nothing. intros H.
  destruct (negb _); [simplify_eq; by split; [|left]|].
  destruct (_ || _); [simplify_eq; by split; [|left]|].
  destruct (get_addr_for_symbol _ _ _) as [[found t]|] eqn:E; [|done].
  apply lookup_keeps_table in E as ->. simpl in H.
  destruct (_ =? _); simplify_eq; (split; [done|]); [by left|].
  right. split; [done|]. by exists 0.
Qed.

Lemma write_jump_effect fuel opcode output args num_args addr reltbl r output' reltbl' :
  write_jump fuel opcode output args num_args addr reltbl
  = Returns (r, output', reltbl') →
  (r = -1 ∧ output' = output ∧ reltbl' = reltbl)
  ∨ (r = 0 ∧ ∃ w : Z, 0 ≤ w < 2 ^ 32 ∧ output' = output ++ [w]).
Proof.
  unfold write_jump, write_inst_hex. intros H.
  destruct (negb _); [simplify_eq; by left|].
  destruct (add_to_table _ _ _ _) as [[r0 t]|]; [|done].
  simpl in H. simplify_eq. right. split; [done|].
  eexists. split; [apply to_uint32_range|done].
Qed.

(** X13. Whenever [translate_inst] returns, it has returned -1 or 0.  With
    -1 the output and both tables are as they were given: a rejected
    instruction leaves nothing behind.  With 0 exactly one word, between 0
    and 2^32 - 1, has been added to the output.  In both cases the label
    table is as it was given. *)
Theorem translate_inst_no_partial_effect
    (fuel : nat) (output : list Z) (name : string) (args : list string)
    (num_args addr : Z) (symtbl reltbl : SymbolTable)
    (r : Z) (output' : list Z) (symtbl' reltbl' : SymbolTable) :
  translate_inst fuel output name args num_args addr symtbl reltbl
  = Returns (r, output', symtbl', reltbl') →
  symtbl' = symtbl
  ∧ ((r = -1 ∧ output' = output ∧ reltbl' = reltbl)
     ∨ (r = 0 ∧ ∃ w : Z, 0 ≤ w < 2 ^ 32 ∧ output' = output ++ [w])).
Proof.
  intros H. unfold translate_inst in H.
  assert (∀ p, one_word_or_nothing output p →
               no_table symtbl reltbl p = Returns (r, output', symtbl', reltbl') →
               symtbl' = symtbl
               ∧ ((r = -1 ∧ output' = output ∧ reltbl' = reltbl)
                  ∨ (r = 0 ∧ ∃ w : Z, 0 ≤ w < 2 ^ 32 ∧ output' = output ++ [w])))
    as Hplain.
  { intros [r0 o0] Hp Heq. unfold no_table in Heq. simpl in Heq. simplify_eq.
    split; [done|].
    destruct Hp as [[Hr Ho]|[Hr Hw]]; simpl in *; subst; [by left|by right]. }
  assert (∀ opcode,
            (write_branch fuel opcode output args num_args addr symtbl
             ≫= λ '(r, output, symtbl), Returns (r, output, symtbl, reltbl))
            = Returns (r, output', symtbl', reltbl') →
            symtbl' = symtbl
            ∧ ((r = -1 ∧ output' = output ∧ reltbl' = reltbl)
               ∨ (r = 0 ∧ ∃ w : Z, 0 ≤ w < 2 ^ 32 ∧ output' = output ++ [w])))
    as Hbranch.
  { intros opcode Heq.
    destruct (write_branch fuel opcode output args num_args addr symtbl)
      as [[[r0 o0] t0]|] eqn:E; [|by simpl in Heq].
    simpl in Heq. simplify_eq.
    apply write_branch_effect in E as [-> Hp]. split; [done|].
    destruct Hp as [[Hr Ho]|[Hr Hw]]; simpl in *; subst; [by left|by right]. }
  assert (∀ opcode,
            (write_jump fuel opcode output args num_args addr reltbl
             ≫= λ '(r, output, reltbl), Returns (r, output, symtbl, reltbl))
            = Returns (r, output', symtbl', reltbl') →
            symtbl' = symtbl
            ∧ ((r = -1 ∧ output' = output ∧ reltbl' = reltbl)
               ∨ (r = 0 ∧ ∃ w : Z, 0 ≤ w < 2 ^ 32 ∧ output' = output ++ [w])))
    as Hjump.
  { intros opcode Heq.
    destruct (write_jump fuel opcode output args num_args addr reltbl)
      as [[[r0 o0] t0]|] eqn:E; [|by simpl in Heq].
    simpl in Heq. simplify_eq. split; [done|].
    by apply write_jump_effect in E. }
  repeat match type of H with
         | (if ?c then _ else _) = _ => destruct c
         end;
    first [ by eapply Hbranch
          | by eapply Hjump
          | eapply Hplain; [|exact H];
            first [ apply write_rtype_effect | apply write_shift_effect
                  | apply write_jr_effect | apply write_addiu_effect
                  | apply write_ori_effect | apply write_lui_effect
                  | apply write_mem_effect ]
          | simplify_eq; split; [done|by left] ].
Qed.

End Effects.

Section DispatchComposition.
Context {U : TranslateUtils}.

Lemma write_branch_returns fuel opcode output args num_args addr symtbl :
  table_ok symtbl → len symtbl < Z.of_nat fuel →
  ∃ res, write_branch fuel opcode output args num_args addr symtbl = Returns res.
Proof.
  intros Hok Hfuel. unfold write_branch.
  destruct (negb _); [by eexists|].
  destruct (_ || _); [by eexists|].
  destruct (lookup_cases fuel symtbl (args !!! 2%nat) Hok Hfuel)
    as [(l1 & s & l2 & _ & _ & _ & ->)|[_ ->]]; simpl.
  - destruct (to_int32 (sym_addr s) =? -1); by eexists.
  - by eexists.
Qed.

(** X14. Every instruction other than j and jal is settled in bounded
    time: on a sound label table [translate_inst] returns with any fuel
    above the length of that table, whatever the relocation table. *)
Theorem translate_inst_returns
    (fuel : nat) (output : list Z) (name : string) (args : list string)
    (num_args addr : Z) (symtbl reltbl : SymbolTable) :
  name ≠ "j" → name ≠ "jal" →
  table_ok symtbl → len symtbl < Z.of_nat fuel →
  ∃ res, translate_inst fuel output name args num_args addr symtbl reltbl
         = Returns res.
Proof.
  intros Hj Hjal Hok Hfuel. unfold translate_inst, no_table.
  rewrite (strcmp_eqb_false name "j"), (strcmp_eqb_false name "jal") by done.
  repeat match goal with
         | |- ∃ _, (if ?c then _ else _) = _ => destruct c
         end;
    try (by eexists).
  all: match goal with
       | |- context [write_branch _ ?opcode] =>
           destruct (write_branch_returns fuel opcode output args num_args addr
                       symtbl Hok Hfuel) as [[[r o] t] ->]
       end; by eexists.
Qed.

Lemma rtype_encoding (funct : Z) (output : list Z) (a0 a1 a2 : string) :
  0 ≤ funct < 64 →
  0 ≤ translate_reg a0 ≤ 31 → 0 ≤ translate_reg a1 ≤ 31 → 0 ≤ translate_reg a2 ≤ 31 →
  write_rtype funct output [a0; a1; a2] 3
  = (0, output ++ [translate_reg a1 * 2 ^ 21 + translate_reg a2 * 2 ^ 16
                   + translate_reg a0 * 2 ^ 11 + 0 * 2 ^ 6 + funct]).
Proof.
  intros Hf Hd Hs Ht. unfold write_rtype, write_inst_hex. simpl.
  rewrite !reg_test by lia. simpl. rewrite rtype_word by lia.
  do 2 f_equal. f_equal. lia.
Qed.

(** X15. Dispatch and encoding compose for the register-register
    mnemonics.  For addu, or, slt and sltu with three register operands
    mapped to 0..31, [translate_inst] returns 0 with any fuel, leaves both
    tables as they were, and adds one word whose function field is the code
    of the mnemonic (0x21, 0x25, 0x2a, 0x2b), whose opcode and shift fields
    are 0, and whose register fields read rs, rt, rd from the second, third
    and first operand. *)
Theorem translate_inst_rtype
    (fuel : nat) (output : list Z) (name : string) (funct : Z) (a0 a1 a2 : string)
    (addr : Z) (symtbl reltbl : SymbolTable) :
  (name, funct) ∈ rtype_mnemonics →
  0 ≤ translate_reg a0 ≤ 31 → 0 ≤ translate_reg a1 ≤ 31 → 0 ≤ translate_reg a2 ≤ 31 →
  ∃ w : Z,
    translate_inst fuel output name [a0; a1; a2] 3 addr symtbl reltbl
    = Returns (0, output ++ [w], symtbl, reltbl)
    ∧ field 31 26 w = 0
    ∧ field 25 21 w = translate_reg a1
    ∧ field 20 16 w = translate_reg a2
    ∧ field 15 11 w = translate_reg a0
    ∧ field 10 6 w = 0
    ∧ field 5 0 w = funct.
Proof.
  intros Hin Hd Hs Ht.
  assert (0 ≤ funct < 64
          ∧ translate_inst fuel output name [a0; a1; a2] 3 addr symtbl reltbl
            = no_table symtbl reltbl (write_rtype funct output [a0; a1; a2] 3))
    as [Hf ->].
  { unfold rtype_mnemonics in Hin.
    repeat (apply elem_of_cons in Hin as [Hin|Hin];
            [injection Hin as -> ->; split; [lia|reflexivity]|]).
    by apply elem_of_nil in Hin. }
  rewrite rtype_encoding by done.
  eexists. split; [reflexivity|].
  destruct (rtype_fields funct (translate_reg a0) (translate_reg a1)
              (translate_reg a2) 0) as (_ & H1 & H2 & H3 & H4 & H5 & H6);
    [lia..|done].
Qed.

End DispatchComposition.

(** ** Worked examples of the further properties *)

Lemma far_label_aligned : aligned_table far_label.
Proof.
  intros s Hs. repeat (apply elem_of_cons in Hs as [->|Hs]; [reflexivity|]).
  by apply elem_of_nil in Hs.
Defined.

(** A lookup of a name that the table does not hold. *)
Lemma get_addr_for_symbol_miss_iff_witness :
  ∃ r, get_addr_for_symbol 4 two_sites "ef" = Returns (r, two_sites)
       ∧ (r = -1 ↔ ∀ s, s ∈ tbl two_sites → sym_name s ≠ "ef").
Proof.
  apply (get_addr_for_symbol_miss_iff 4 two_sites "ef" two_sites_ok).
  - simpl. lia.
  - intros s Hs. repeat (apply elem_of_cons in Hs as [->|Hs]; [simpl; lia|]).
    by apply elem_of_nil in Hs.
Defined.

(** A first insertion, of "abc" at 8 into a fresh table, returns 0 with
    the entry appended; an insertion of "x" into a table in unique mode
    that holds "x" at the address 2 returns -1 with the table as it was. *)
Lemma add_to_table_outcome_witness :
  (add_to_table 1 (create_table SYMTBL_UNIQUE_NAME) "abc" 8 = Returns (0, one_label)
   ∧ table_ok one_label
   ∧ (aligned_table (create_table SYMTBL_UNIQUE_NAME) → aligned_table one_label)
   ∧ mode one_label = mode (create_table SYMTBL_UNIQUE_NAME)
   ∧ cap one_label = cap (create_table SYMTBL_UNIQUE_NAME)
   ∧ ((0 = -1 ∧ one_label = create_table SYMTBL_UNIQUE_NAME)
      ∨ (0 = 0
         ∧ tbl one_label
           = tbl (create_table SYMTBL_UNIQUE_NAME)
             ++ [ {| sym_name := "abc"; sym_addr := 8 |} ]
         ∧ len one_label = len (create_table SYMTBL_UNIQUE_NAME) + 1)))
  ∧ (add_to_table 2 odd_entry "x" 8 = Returns (-1, odd_entry)
     ∧ table_ok odd_entry
     ∧ (aligned_table odd_entry → aligned_table odd_entry)
     ∧ mode odd_entry = mode odd_entry
     ∧ cap odd_entry = cap odd_entry
     ∧ ((-1 = -1 ∧ odd_entry = odd_entry)
        ∨ (-1 = 0
           ∧ tbl odd_entry = tbl odd_entry ++ [ {| sym_name := "x"; sym_addr := 8 |} ]
           ∧ len odd_entry = len odd_entry + 1))).
Proof.
  split; (split; [reflexivity|]).
  - apply (add_to_table_outcome 1 (create_table SYMTBL_UNIQUE_NAME) "abc" 8 0 one_label);
      [split; [reflexivity | unfold INT_MAX; simpl; lia] | reflexivity].
  - apply (add_to_table_outcome 2 odd_entry "x" 8 (-1) odd_entry);
      [split; [reflexivity | unfold INT_MAX; simpl; lia] | reflexivity].
Defined.

(** "abc" at 8 into a fresh table in unique mode, then two lookups. *)
Lemma fresh_insert_then_lookup_witness :
  ∃ table,
    add_to_table 2 (create_table SYMTBL_UNIQUE_NAME) "abc" 8 = Returns (0, table)
    ∧ get_addr_for_symbol 2 table "abc" = Returns (8, table)
    ∧ get_addr_for_symbol 2 table "ef" = Returns (-1, table).
Proof.
  apply (fresh_insert_then_lookup SYMTBL_UNIQUE_NAME "abc" "ef" 8 2);
    [reflexivity | discriminate | lia].
Defined.

(** [sll $t0, $t1, 4]. *)
Lemma write_shift_fields_roundtrip_witness :
  ∃ w : Z,
    write_shift (U := tests_utils) 0x00 [] ["$t0"; "$t1"; "4"] 3 = (0, [] ++ [w])
    ∧ 0 ≤ w < 2 ^ 32
    ∧ field 31 26 w = 0 ∧ field 25 21 w = 0
    ∧ field 20 16 w = 9 ∧ field 15 11 w = 8 ∧ field 10 6 w = 4
    ∧ field 5 0 w = 0x00.
Proof.
  apply (write_shift_fields_roundtrip (U := tests_utils) 0x00 [] "$t0" "$t1" "4" 4);
    first [reflexivity | vm_compute; split; (discriminate || reflexivity)].
Defined.

(** [jr $t0]. *)
Lemma write_jr_fields_roundtrip_witness :
  ∃ w : Z,
    write_jr (U := tests_utils) 0x08 [] ["$t0"] 1 = (0, [] ++ [w])
    ∧ 0 ≤ w < 2 ^ 32
    ∧ field 31 26 w = 0 ∧ field 25 21 w = 8
    ∧ field 20 16 w = 0 ∧ field 15 11 w = 0 ∧ field 10 6 w = 0
    ∧ field 5 0 w = 0x08.
Proof.
  apply (write_jr_fields_roundtrip (U := tests_utils) 0x08 [] "$t0");
    vm_compute; split; (discriminate || reflexivity).
Defined.

(** [addiu $t0, $t1, 100]. *)
Lemma write_addiu_fields_roundtrip_witness :
  ∃ w : Z,
    write_addiu (U := tests_utils) 0x9 [] ["$t0"; "$t1"; "100"] 3 = (0, [] ++ [w])
    ∧ 0 ≤ w < 2 ^ 32
    ∧ field 31 26 w = 0x9 ∧ field 25 21 w = 9 ∧ field 20 16 w = 8
    ∧ field 15 0 w = 100.
Proof.
  apply (write_addiu_fields_roundtrip (U := tests_utils) 0x9 [] "$t0" "$t1" "100" 100);
    first [reflexivity | vm_compute; split; (discriminate || reflexivity)].
Defined.

(** [addiu $t0, $t1, -1]: the word reads register 7 where the operand
    names register 8. *)
Lemma write_addiu_negative_immediate_witness :
  ∃ w : Z,
    write_addiu (U := tests_utils) 0x9 [] ["$t0"; "$t1"; "-1"] 3 = (0, [] ++ [w])
    ∧ 0 ≤ w < 2 ^ 32
    ∧ field 31 26 w = 0x9 ∧ field 25 21 w = 9 ∧ field 20 16 w = 8 - 1
    ∧ field 15 0 w = -1 + 65536.
Proof.
  apply (write_addiu_negative_immediate (U := tests_utils) 0x9 [] "$t0" "$t1" "-1" (-1));
    first [reflexivity | vm_compute; split; (discriminate || reflexivity)].
Defined.

(** [ori $t0, $t1, 255]. *)
Lemma write_ori_fields_roundtrip_witness :
  ∃ w : Z,
    write_ori (U := tests_utils) 0xd [] ["$t0"; "$t1"; "255"] 3 = (0, [] ++ [w])
    ∧ 0 ≤ w < 2 ^ 32
    ∧ field 31 26 w = 0xd ∧ field 25 21 w = 9 ∧ field 20 16 w = 8
    ∧ field 15 0 w = 255.
Proof.
  apply (write_ori_fields_roundtrip (U := tests_utils) 0xd [] "$t0" "$t1" "255" 255);
    first [reflexivity | vm_compute; split; (discriminate || reflexivity)].
Defined.

(** [lui $t0, 0x1234]. *)
Lemma write_lui_fields_roundtrip_witness :
  ∃ w : Z,
    write_lui (U := tests_utils) 0xf [] ["$t0"; "0x1234"] 2 = (0, [] ++ [w])
    ∧ 0 ≤ w < 2 ^ 32
    ∧ field 31 26 w = 0xf ∧ field 25 21 w = 0 ∧ field 20 16 w = 8
    ∧ field 15 0 w = 4660.
Proof.
  apply (write_lui_fields_roundtrip (U := tests_utils) 0xf [] "$t0" "0x1234" 4660);
    first [reflexivity | vm_compute; split; (discriminate || reflexivity)].
Defined.

(** [lw $t0, 4($s0)]. *)
Lemma write_mem_fields_roundtrip_witness :
  ∃ w : Z,
    write_mem (U := tests_utils) 0x23 [] ["$t0"; "4"; "$s0"] 3 = (0, [] ++ [w])
    ∧ 0 ≤ w < 2 ^ 32
    ∧ field 31 26 w = 0x23 ∧ field 25 21 w = 16 ∧ field 20 16 w = 8
    ∧ field 15 0 w = 4.
Proof.
  apply (write_mem_fields_roundtrip (U := tests_utils) 0x23 [] "$t0" "4" "$s0" 4);
    first [reflexivity | vm_compute; split; (discriminate || reflexivity)].
Defined.

(** [lw $t0, -4($s0)]: the word reads register 7 where the operand names
    register 8. *)
Lemma write_mem_negative_offset_witness :
  ∃ w : Z,
    write_mem (U := tests_utils) 0x23 [] ["$t0"; "-4"; "$s0"] 3 = (0, [] ++ [w])
    ∧ 0 ≤ w < 2 ^ 32
    ∧ field 31 26 w = 0x23 ∧ field 25 21 w = 16 ∧ field 20 16 w = 8 - 1
    ∧ field 15 0 w = -4 + 65536.
Proof.
  apply (write_mem_negative_offset (U := tests_utils) 0x23 [] "$t0" "-4" "$s0" (-4));
    first [reflexivity | vm_compute; split; (discriminate || reflexivity)].
Defined.

(** [bne $t0, $t1, far] and [bne $t0, $t1, near] against a table that
    holds "far" only. *)
Lemma write_branch_outcome_witness :
  write_branch (U := tests_utils) 2 0x5 [] ["$t0"; "$t1"; "near"] 3 0 far_label
  = Returns (-1, [], far_label)
  ∧ write_branch (U := tests_utils) 2 0x5 [] ["$t0"; "$t1"; "far"] 3 0 far_label
    = Returns (0, [] ++ [0], far_label).
Proof.
  split.
  - apply (write_branch_outcome (U := tests_utils) 2 0x5 [] "$t0" "$t1" "near" 0
             far_label far_label_ok far_label_aligned ltac:(simpl; lia)).
    right. right. other_names.
  - apply (write_branch_outcome (U := tests_utils) 2 0x5 [] "$t0" "$t1" "far" 0
             far_label far_label_ok far_label_aligned ltac:(simpl; lia)).
    + simpl. discriminate.
    + simpl. discriminate.
    + exists {| sym_name := "far"; sym_addr := 1048576 |}. split; [|reflexivity].
      apply elem_of_cons. by left.
Defined.

(** [nop] is no mnemonic of pass two. *)
Lemma translate_inst_unknown_witness :
  translate_inst (U := tests_utils) 0 [] "nop" [] 0 0 far_label one_label
  = Returns (-1, [], far_label, one_label).
Proof.
  apply (translate_inst_unknown (U := tests_utils)).
  unfold real_mnemonics.
  repeat (apply not_elem_of_cons; split; [discriminate|]).
  apply not_elem_of_nil.
Defined.

(** [addu $t0, $3, $t1]: "$3" is no register name, nothing is written. *)
Lemma translate_inst_no_partial_effect_witness :
  translate_inst (U := tests_utils) 1 [7] "addu" ["$t0"; "$3"; "$t1"] 3 0
    far_label one_label
  = Returns (-1, [7], far_label, one_label)
  ∧ (far_label = far_label
     ∧ ((-1 = -1 ∧ [7] = [7] ∧ one_label = one_label)
        ∨ (-1 = 0 ∧ ∃ w : Z, 0 ≤ w < 2 ^ 32 ∧ [7] = [7] ++ [w]))).
Proof.
  split; [reflexivity|].
  apply (translate_inst_no_partial_effect (U := tests_utils) 1 [7] "addu"
           ["$t0"; "$3"; "$t1"] 3 0 far_label one_label).
  reflexivity.
Defined.

(** [beq $t0, $t1, far] with a relocation table that already holds an
    entry. *)
Lemma translate_inst_returns_witness :
  ∃ res,
    translate_inst (U := tests_utils) 2 [] "beq" ["$t0"; "$t1"; "far"] 3 0
      far_label one_label
    = Returns res.
Proof.
  apply (translate_inst_returns (U := tests_utils));
    [discriminate | discriminate | exact far_label_ok | simpl; lia].
Defined.

(** [slt $t0, $t1, $t2]. *)
Lemma translate_inst_rtype_witness :
  ∃ w : Z,
    translate_inst (U := tests_utils) 0 [] "slt" ["$t0"; "$t1"; "$t2"] 3 0
      far_label one_label
    = Returns (0, [] ++ [w], far_label, one_label)
    ∧ field 31 26 w = 0 ∧ field 25 21 w = 9 ∧ field 20 16 w = 10
    ∧ field 15 11 w = 8 ∧ field 10 6 w = 0 ∧ field 5 0 w = 0x2a.
Proof.
  apply (translate_inst_rtype (U := tests_utils) 0 [] "slt" 0x2a "$t0" "$t1" "$t2").
  - unfold rtype_mnemonics. do 2 (apply elem_of_cons; right). apply elem_of_cons. by left.
  - vm_compute; split; discriminate.
  - vm_compute; split; discriminate.
  - vm_compute; split; discriminate.
Defined.
